(** * AIND-Isolation: the game-playing agent of [game_agent.py]

    A shallow embedding of the heuristics ([custom_score], [within_radius],
    [own_distance_from_mid], [diff_distance_from_mid]) and of the
    [CustomPlayer] class ([__init__], [get_move], [minimax], [alphabeta]),
    followed by the properties of the search, of the iterative-deepening
    driver and of the heuristics.

    Conventions of the embedding.
    - Python numbers that are only compared (scores, remaining time, the
      timer threshold) live in a type [F] with the comparisons [<], [<=]
      and the two values [float("-inf")], [float("inf")] (class [Float]).
      Nothing is assumed about the comparisons unless a statement asks for
      [FloatOrder], the laws of a total order (floats without NaN, or
      Python integers together with the two infinities).
    - The isolation board is not part of the file: it is the interface
      [Board], whose operations are the methods the agent calls.
    - [time_left] is a callable whose successive calls give successive
      readings: it is a function of the number of calls made so far, and the
      [world] threaded through the code counts them.
    - [raise Timeout()] is the outcome [Raised Timeout]. *)

From Stdlib Require Import ZArith List Bool String Lia Reals Lra.
Import ListNotations.

Set Implicit Arguments.

(** ** Numbers *)

Class Float (F : Type) : Type := {
  flt : F -> F -> bool;    (* x < y *)
  fle : F -> F -> bool;    (* x <= y *)
  ninf : F;                (* float("-inf") *)
  pinf : F                 (* float("inf") *)
}.

(** [x > y] is [y < x]. *)
Definition fgt {F} `{Float F} (x y : F) : bool := flt y x.

(** Python's [max(a, b)] and [min(a, b)]: the first argument is kept unless
    the second is strictly better. *)
Definition fmax {F} `{Float F} (a b : F) : F := if fgt b a then b else a.
Definition fmin {F} `{Float F} (a b : F) : F := if flt b a then b else a.

(** How the score [r] of a search pruned with the window [(alpha, beta)]
    stands to the score [v] of the full search: equal inside the window,
    on the same side outside. *)
Definition fail_soft {F} `{Float F} (alpha beta v r : F) : Prop :=
  (flt alpha v = false -> flt alpha r = false)
  /\ (flt alpha v = true -> flt v beta = true -> r = v)
  /\ (flt v beta = false -> flt r beta = false).

(** The laws of a total order with the infinities at its ends. *)
Class FloatOrder (F : Type) `{Float F} : Prop := {
  fle_flt : forall x y, fle x y = negb (flt y x);
  flt_irrefl : forall x, flt x x = false;
  flt_trans : forall x y z, flt x y = true -> flt y z = true -> flt x z = true;
  flt_connex : forall x y, flt x y = false -> flt y x = false -> x = y;
  ninf_least : forall x, flt x ninf = false;
  pinf_greatest : forall x, flt pinf x = false;
  ninf_pinf : flt ninf pinf = true
}.
Arguments FloatOrder F {_}.

(** Finite values of [A] with the two infinities added. *)
Inductive ext (A : Type) : Type :=
| NInf : ext A
| Fin : A -> ext A
| PInf : ext A.
Arguments NInf {A}.
Arguments PInf {A}.

Definition ext_ltb {A} (lt : A -> A -> bool) (x y : ext A) : bool :=
  match x, y with
  | _, NInf => false
  | NInf, _ => true
  | PInf, _ => false
  | _, PInf => true
  | Fin a, Fin b => lt a b
  end.

(** Integers with the infinities: what comparisons see when a heuristic
    returns Python integers. *)
#[export] Instance Float_extZ : Float (ext Z) := {
  flt := ext_ltb Z.ltb;
  fle := fun x y => negb (ext_ltb Z.ltb y x);
  ninf := NInf;
  pinf := PInf
}.

(** Real numbers with the infinities: floats, rounding left out. *)
Definition Rltb (x y : R) : bool := if Rlt_dec x y then true else false.

#[export] Instance Float_extR : Float (ext R) := {
  flt := ext_ltb Rltb;
  fle := fun x y => negb (ext_ltb Rltb y x);
  ninf := NInf;
  pinf := PInf
}.

(** ** The board, as the agent sees it *)

Definition move : Type := (Z * Z)%type.

Class Board (game player : Type) : Type := {
  width : game -> Z;
  height : game -> Z;
  get_player_location : game -> player -> move;
  get_opponent : game -> player -> player;
  (* [None] is the default argument: the active player *)
  get_legal_moves : game -> option player -> list move;
  forecast_move : game -> move -> game;
  is_winner : game -> player -> bool;
  is_loser : game -> player -> bool
}.

(** ** The heuristic *)

Section Heuristic.
Context {game player : Type} `{Board game player}.

Definition diff_distance_from_mid (g : game) (p : player) : R :=
  let mid_row := (width g / 2)%Z in
  let mid_col := (height g / 2)%Z in
  let '(own_row, own_col) := get_player_location g p in
  let own_row_diff := (IZR (own_row - mid_row) ^ 2)%R in
  let own_col_diff := (IZR (own_col - mid_col) ^ 2)%R in
  let '(opp_row, opp_col) := get_player_location g (get_opponent g p) in
  let opp_row_diff := (IZR (opp_row - mid_row) ^ 2)%R in
  let opp_col_diff := (IZR (opp_col - mid_col) ^ 2)%R in
  let own_moves := Z.of_nat (List.length (get_legal_moves g (Some p))) in
  let opp_moves :=
    Z.of_nat (List.length (get_legal_moves g (Some (get_opponent g p)))) in
  let weight :=
    (sqrt (opp_row_diff + opp_col_diff)
     - sqrt (own_row_diff + own_col_diff))%R in
  (IZR (own_moves - opp_moves) + weight)%R.

Definition custom_score (g : game) (p : player) : ext R :=
  if is_loser g p then NInf
  else if is_winner g p then PInf
  else Fin (diff_distance_from_mid g p).

(** The two other heuristics of the file. [1/level] and [1/math.sqrt(...)]
    are divisions of floats (Python 3). *)
Definition within_radius (g : game) (p : player) : R :=
  let mid_row := (width g / 2)%Z in
  let mid_col := (height g / 2)%Z in
  let '(player_row, player_col) := get_player_location g p in
  let level :=
    Z.max (Z.abs (mid_row - player_row)) (Z.abs (mid_col - player_col)) in
  let own_moves := Z.of_nat (List.length (get_legal_moves g (Some p))) in
  let opp_moves :=
    Z.of_nat (List.length (get_legal_moves g (Some (get_opponent g p)))) in
  if (level >? 0)%Z
  then (IZR (own_moves - opp_moves) + 1 / IZR level)%R
  else IZR (own_moves - opp_moves).

Definition own_distance_from_mid (g : game) (p : player) : R :=
  let mid_row := (width g / 2)%Z in
  let mid_col := (height g / 2)%Z in
  let '(own_row, own_col) := get_player_location g p in
  let row_diff := (IZR (own_row - mid_row) ^ 2)%R in
  let col_diff := (IZR (own_col - mid_col) ^ 2)%R in
  let own_moves := Z.of_nat (List.length (get_legal_moves g (Some p))) in
  let opp_moves :=
    Z.of_nat (List.length (get_legal_moves g (Some (get_opponent g p)))) in
  if Rltb 0 (row_diff + col_diff)
  then (IZR (own_moves - opp_moves) + 1 / sqrt (row_diff + col_diff))%R
  else IZR (own_moves - opp_moves).
End Heuristic.

(** ** Effects: the clock, the calls made, and [Timeout] *)

Inductive exn : Type := Timeout.

Inductive outcome (A : Type) : Type :=
| Returned : A -> outcome A
| Raised : exn -> outcome A.
Arguments Raised {A}.

(** What the code has done so far: the calls of [time_left] (also the index
    of its next reading), of the score function, and of the two search
    methods. *)
Record world : Type := World {
  time_queries : nat;
  score_calls : nat;
  search_calls : nat
}.

Definition count_query (w : world) : world :=
  World (S (time_queries w)) (score_calls w) (search_calls w).
Definition count_score (w : world) : world :=
  World (time_queries w) (S (score_calls w)) (search_calls w).
Definition count_search (w : world) : world :=
  World (time_queries w) (score_calls w) (S (search_calls w)).

Definition M (A : Type) : Type := world -> outcome A * world.

Definition ret {A} (a : A) : M A := fun w => (Returned a, w).

Definition bind {A B} (m : M A) (k : A -> M B) : M B :=
  fun w =>
    match m w with
    | (Returned a, w') => k a w'
    | (Raised e, w') => (Raised e, w')
    end.

Definition raise {A} (e : exn) : M A := fun w => (Raised e, w).

Declare Scope agent_scope.
Delimit Scope agent_scope with agent.
Notation "x <- m ;; k" := (bind m (fun x => k))
  (at level 61, m at next level, right associativity) : agent_scope.
Notation "m ;; k" := (bind m (fun _ => k))
  (at level 61, right associativity) : agent_scope.
Open Scope agent_scope.

(** ** The agent *)

Definition result (F : Type) : Type := (F * move)%type.

(** [r] is the greatest of the scores of [pairs], with the first move that
    reaches it: the pair at index [i]. *)
Definition first_greatest {F} `{Float F} (pairs : list (move * F))
    (r : result F) (i : nat) : Prop :=
  nth_error pairs i = Some (snd r, fst r)
  /\ (forall p, In p pairs -> flt (fst r) (snd p) = false)
  /\ (forall j p, j < i -> nth_error pairs j = Some p ->
        flt (snd p) (fst r) = true).

Definition first_smallest {F} `{Float F} (pairs : list (move * F))
    (r : result F) (i : nat) : Prop :=
  nth_error pairs i = Some (snd r, fst r)
  /\ (forall p, In p pairs -> flt (snd p) (fst r) = false)
  /\ (forall j p, j < i -> nth_error pairs j = Some p ->
        flt (fst r) (snd p) = true).

Record CustomPlayer (F game player : Type) : Type := {
  ident : player;      (* the object itself, as the board knows it *)
  search_depth : Z;
  iterative : bool;
  score : game -> player -> F;
  method : string;
  TIMER_THRESHOLD : F
}.

(** [CustomPlayer.__init__]: six assignments ([time_left] is set to [None]
    and given by [get_move]). *)
Definition init {F game player} (self : player) (search_depth : Z)
    (score_fn : game -> player -> F) (iterative : bool) (method : string)
    (timeout : F) : outcome (CustomPlayer F game player) :=
  Returned {| ident := self; search_depth := search_depth;
              iterative := iterative; score := score_fn; method := method;
              TIMER_THRESHOLD := timeout |}.

Section Agent.
Context {F game player : Type} `{Float F} `{Board game player}.
Variable self : CustomPlayer F game player.
Variable time_left : nat -> F.

(** [self.time_left()] *)
Definition query_time : M F := fun w =>
  (Returned (time_left (time_queries w)), count_query w).

(** [self.score(game, self)] *)
Definition call_score (g : game) : M F := fun w =>
  (Returned (score self g (ident self)), count_score w).

(** Entering [minimax] or [alphabeta]. *)
Definition enter_search : M unit := fun w => (Returned tt, count_search w).

(** [if self.time_left() < self.TIMER_THRESHOLD: raise Timeout()] *)
Definition check_time : M unit :=
  t <- query_time ;;
  if flt t (TIMER_THRESHOLD self) then raise Timeout else ret tt.

(** The leaf of [minimax] and of [alphabeta]: the score of the state and
    the location of the agent. *)
Definition leaf (g : game) : M (result F) :=
  let last_move := get_player_location g (ident self) in
  last_score <- call_score g ;;
  ret (last_score, last_move).

(** *** minimax *)

Fixpoint minimax_max_loop (rec : game -> M (result F)) (g : game)
    (moves : list move) (max_score : F) (max_move : move) : M (result F) :=
  match moves with
  | [] => ret (max_score, max_move)
  | move :: rest =>
      let new_game := forecast_move g move in
      r <- rec new_game ;;
      let new_score := fst r in
      if fgt new_score max_score
      then minimax_max_loop rec g rest new_score move
      else minimax_max_loop rec g rest max_score max_move
  end.

Fixpoint minimax_min_loop (rec : game -> M (result F)) (g : game)
    (moves : list move) (min_score : F) (min_move : move) : M (result F) :=
  match moves with
  | [] => ret (min_score, min_move)
  | move :: rest =>
      let new_game := forecast_move g move in
      r <- rec new_game ;;
      let new_score := fst r in
      if flt new_score min_score
      then minimax_min_loop rec g rest new_score move
      else minimax_min_loop rec g rest min_score min_move
  end.

(** What follows the time check. [depth] counts the plies left:
    [depth < 1] is [O]. *)
Fixpoint minimax_plies (depth : nat) (g : game) (maximizing_player : bool)
    : M (result F) :=
  enter_search ;;
  check_time ;;
  let legal_moves := get_legal_moves g None in
  match depth, legal_moves with
  | O, _ | _, [] => leaf g
  | S depth', first :: _ =>
      if maximizing_player
      then minimax_max_loop (fun g' => minimax_plies depth' g' false)
             g legal_moves ninf first
      else minimax_min_loop (fun g' => minimax_plies depth' g' true)
             g legal_moves pinf first
  end.

Definition minimax (g : game) (depth : Z) (maximizing_player : bool)
    : M (result F) :=
  minimax_plies (Z.to_nat depth) g maximizing_player.

(** The part of [minimax] after the time check. *)
Definition minimax_expand (depth : nat) (g : game) (maximizing_player : bool)
    : M (result F) :=
  let legal_moves := get_legal_moves g None in
  match depth, legal_moves with
  | O, _ | _, [] => leaf g
  | S depth', first :: _ =>
      if maximizing_player
      then minimax_max_loop (fun g' => minimax_plies depth' g' false)
             g legal_moves ninf first
      else minimax_min_loop (fun g' => minimax_plies depth' g' true)
             g legal_moves pinf first
  end.

(** *** alphabeta *)

Fixpoint alphabeta_max_loop (rec : game -> F -> F -> M (result F))
    (g : game) (moves : list move) (alpha beta : F)
    (max_score : F) (max_move : move) : M (result F) :=
  match moves with
  | [] => ret (max_score, max_move)
  | move :: rest =>
      let new_game := forecast_move g move in
      r <- rec new_game alpha beta ;;
      let new_score := fst r in
      let '(max_score, max_move) :=
        if fgt new_score max_score then (new_score, move)
        else (max_score, max_move) in
      let alpha := fmax alpha max_score in
      if fle beta alpha then ret (max_score, max_move)
      else alphabeta_max_loop rec g rest alpha beta max_score max_move
  end.

Fixpoint alphabeta_min_loop (rec : game -> F -> F -> M (result F))
    (g : game) (moves : list move) (alpha beta : F)
    (min_score : F) (min_move : move) : M (result F) :=
  match moves with
  | [] => ret (min_score, min_move)
  | move :: rest =>
      let new_game := forecast_move g move in
      r <- rec new_game alpha beta ;;
      let new_score := fst r in
      let '(min_score, min_move) :=
        if flt new_score min_score then (new_score, move)
        else (min_score, min_move) in
      let beta := fmin beta min_score in
      if fle beta alpha then ret (min_score, min_move)
      else alphabeta_min_loop rec g rest alpha beta min_score min_move
  end.

Fixpoint alphabeta_plies (depth : nat) (g : game) (alpha beta : F)
    (maximizing_player : bool) : M (result F) :=
  enter_search ;;
  check_time ;;
  let legal_moves := get_legal_moves g None in
  match depth, legal_moves with
  | O, _ | _, [] => leaf g
  | S depth', first :: _ =>
      if maximizing_player
      then alphabeta_max_loop
             (fun g' a b => alphabeta_plies depth' g' a b false)
             g legal_moves alpha beta ninf first
      else alphabeta_min_loop
             (fun g' a b => alphabeta_plies depth' g' a b true)
             g legal_moves alpha beta pinf first
  end.

Definition alphabeta (g : game) (depth : Z) (alpha beta : F)
    (maximizing_player : bool) : M (result F) :=
  alphabeta_plies (Z.to_nat depth) g alpha beta maximizing_player.

(** The part of [alphabeta] after the time check. *)
Definition alphabeta_expand (depth : nat) (g : game) (alpha beta : F)
    (maximizing_player : bool) : M (result F) :=
  let legal_moves := get_legal_moves g None in
  match depth, legal_moves with
  | O, _ | _, [] => leaf g
  | S depth', first :: _ =>
      if maximizing_player
      then alphabeta_max_loop
             (fun g' a b => alphabeta_plies depth' g' a b false)
             g legal_moves alpha beta ninf first
      else alphabeta_min_loop
             (fun g' a b => alphabeta_plies depth' g' a b true)
             g legal_moves alpha beta pinf first
  end.

(** *** get_move *)

(** One pass through the [if self.method == ... elif ...] of [get_move]:
    the pair [(score, move)] is assigned when the search returns, and
    kept when neither name matches. *)
Definition search_once (g : game) (depth : Z) (cur : result F)
    : M (result F) :=
  if String.eqb (method self) "minimax" then minimax g depth true
  else if String.eqb (method self) "alphabeta"
       then alphabeta g depth ninf pinf true
  else ret cur.

(** [while True:] with [depth_counter] and the locals [(score, move)].
    [fuel] bounds the number of passes; [None] is a loop still running
    when the fuel is spent. The [except Timeout] clause returns the
    locals as they are. *)
Fixpoint deepen (fuel : nat) (g : game) (depth_counter : Z)
    (cur : result F) (w : world) : option (result F * world) :=
  match fuel with
  | O => None
  | S fuel' =>
      match search_once g depth_counter cur w with
      | (Returned r, w') => deepen fuel' g (depth_counter + 1) r w'
      | (Raised Timeout, w') => Some (cur, w')
      end
  end.

(** The locals [(score, move)] of [get_move] when it returns; the
    sentinel has no score. *)
Definition get_move_locals (fuel : nat) (g : game)
    (legal_moves : list move) (w : world)
    : option (option F * move * world) :=
  match legal_moves with
  | [] => Some (None, ((-1)%Z, (-1)%Z), w)
  | first :: _ =>
      let move := first in
      let score := score self g (ident self) in
      let w1 := count_score w in
      if iterative self
      then match deepen fuel g 1 (score, move) w1 with
           | Some ((s, m), w') => Some (Some s, m, w')
           | None => None
           end
      else match search_once g (search_depth self) (score, move) w1 with
           | (Returned (s, m), w') => Some (Some s, m, w')
           | (Raised Timeout, w') => Some (Some score, move, w')
           end
  end.

Definition get_move (fuel : nat) (g : game) (legal_moves : list move)
    (w : world) : option (move * world) :=
  match get_move_locals fuel g legal_moves w with
  | Some (_, m, w') => Some (m, w')
  | None => None
  end.

(** *** The search with the clock left out

    The same code read without [self.time_left]: the result a call reaches
    when no [Timeout] is raised, with the number of calls of the method it
    takes (each of them queries the clock once). *)

Definition visit : Type := (result F * nat)%type.

Definition leaf_value (g : game) : result F :=
  (score self g (ident self), get_player_location g (ident self)).

Fixpoint minimax_max_value (rec : game -> visit) (g : game)
    (moves : list move) (max_score : F) (max_move : move) (calls : nat)
    : visit :=
  match moves with
  | [] => ((max_score, max_move), calls)
  | move :: rest =>
      let '(r, k) := rec (forecast_move g move) in
      let new_score := fst r in
      if fgt new_score max_score
      then minimax_max_value rec g rest new_score move (calls + k)
      else minimax_max_value rec g rest max_score max_move (calls + k)
  end.

Fixpoint minimax_min_value (rec : game -> visit) (g : game)
    (moves : list move) (min_score : F) (min_move : move) (calls : nat)
    : visit :=
  match moves with
  | [] => ((min_score, min_move), calls)
  | move :: rest =>
      let '(r, k) := rec (forecast_move g move) in
      let new_score := fst r in
      if flt new_score min_score
      then minimax_min_value rec g rest new_score move (calls + k)
      else minimax_min_value rec g rest min_score min_move (calls + k)
  end.

Fixpoint minimax_value (depth : nat) (g : game) (maximizing_player : bool)
    : visit :=
  let legal_moves := get_legal_moves g None in
  match depth, legal_moves with
  | O, _ | _, [] => (leaf_value g, 1)
  | S depth', first :: _ =>
      if maximizing_player
      then minimax_max_value (fun g' => minimax_value depth' g' false)
             g legal_moves ninf first 1
      else minimax_min_value (fun g' => minimax_value depth' g' true)
             g legal_moves pinf first 1
  end.

Fixpoint alphabeta_max_value (rec : game -> F -> F -> visit) (g : game)
    (moves : list move) (alpha beta : F) (max_score : F) (max_move : move)
    (calls : nat) : visit :=
  match moves with
  | [] => ((max_score, max_move), calls)
  | move :: rest =>
      let '(r, k) := rec (forecast_move g move) alpha beta in
      let new_score := fst r in
      let '(max_score, max_move) :=
        if fgt new_score max_score then (new_score, move)
        else (max_score, max_move) in
      let alpha := fmax alpha max_score in
      if fle beta alpha then ((max_score, max_move), calls + k)
      else alphabeta_max_value rec g rest alpha beta max_score max_move
             (calls + k)
  end.

Fixpoint alphabeta_min_value (rec : game -> F -> F -> visit) (g : game)
    (moves : list move) (alpha beta : F) (min_score : F) (min_move : move)
    (calls : nat) : visit :=
  match moves with
  | [] => ((min_score, min_move), calls)
  | move :: rest =>
      let '(r, k) := rec (forecast_move g move) alpha beta in
      let new_score := fst r in
      let '(min_score, min_move) :=
        if flt new_score min_score then (new_score, move)
        else (min_score, min_move) in
      let beta := fmin beta min_score in
      if fle beta alpha then ((min_score, min_move), calls + k)
      else alphabeta_min_value rec g rest alpha beta min_score min_move
             (calls + k)
  end.

Fixpoint alphabeta_value (depth : nat) (g : game) (alpha beta : F)
    (maximizing_player : bool) : visit :=
  let legal_moves := get_legal_moves g None in
  match depth, legal_moves with
  | O, _ | _, [] => (leaf_value g, 1)
  | S depth', first :: _ =>
      if maximizing_player
      then alphabeta_max_value
             (fun g' a b => alphabeta_value depth' g' a b false)
             g legal_moves alpha beta ninf first 1
      else alphabeta_min_value
             (fun g' a b => alphabeta_value depth' g' a b true)
             g legal_moves alpha beta pinf first 1
  end.

(** The readings [time_left] gives to its calls number [c], ..., [c + n - 1]
    all reach the threshold. *)
Definition ample (c n : nat) : Prop :=
  forall i, i < n -> flt (time_left (c + i)) (TIMER_THRESHOLD self) = false.

(** A call of a method that returns has had ample time for all the calls
    the clock-free reading counts, and returns what that reading says. *)
Definition returns_value (run : M (result F)) (v : visit) : Prop :=
  forall w r w',
    run w = (Returned r, w') ->
    ample (time_queries w) (snd v) /\ r = fst v
    /\ time_queries w' = time_queries w + snd v.

(** With ample time for the calls the clock-free reading counts, the call
    returns what that reading says. *)
Definition value_returned (run : M (result F)) (v : visit) : Prop :=
  forall w,
    ample (time_queries w) (snd v) ->
    exists w',
      run w = (Returned (fst v), w')
      /\ time_queries w' = time_queries w + snd v.

(** The recursive evaluation of each legal move, in the order of
    enumeration: every move with the score its call returns. *)
Fixpoint eval_moves (rec : game -> M (result F)) (g : game)
    (moves : list move) : M (list (move * F)) :=
  match moves with
  | [] => ret []
  | move :: rest =>
      r <- rec (forecast_move g move) ;;
      rs <- eval_moves rec g rest ;;
      ret ((move, fst r) :: rs)
  end.

(** The locals of the driver after [n] passes of the deepening loop that
    all returned, from the fallback [cur]; [None] when one of them raised. *)
Fixpoint completed (n : nat) (g : game) (cur : result F) (w : world)
    : option (result F * world) :=
  match n with
  | O => Some (cur, w)
  | S n' =>
      match completed n' g cur w with
      | Some (r, w') =>
          match search_once g (Z.of_nat n' + 1) r w' with
          | (Returned r', w'') => Some (r', w'')
          | (Raised _, _) => None
          end
      | None => None
      end
  end.
End Agent.

(** ** Two small boards to run the code on *)

(** A game tree given outright: the location of the agent, the value a
    heuristic reads off the state, and the state each legal move leads
    to. *)
#[warnings="-register-all"]
Inductive tree : Type :=
| Node : move -> ext Z -> list (move * tree) -> tree.

Definition tree_location (t : tree) : move :=
  match t with Node p _ _ => p end.
Definition tree_value (t : tree) : ext Z :=
  match t with Node _ v _ => v end.
Definition tree_children (t : tree) : list (move * tree) :=
  match t with Node _ _ kids => kids end.

Definition move_eqb (a b : move) : bool :=
  (fst a =? fst b)%Z && (snd a =? snd b)%Z.

Definition tree_forecast (t : tree) (m : move) : tree :=
  match find (fun c => move_eqb (fst c) m) (tree_children t) with
  | Some c => snd c
  | None => t
  end.

#[export] Instance Board_tree : Board tree unit := {
  width := fun _ => 7%Z;
  height := fun _ => 7%Z;
  get_player_location := fun t _ => tree_location t;
  get_opponent := fun _ p => p;
  get_legal_moves := fun t _ => map fst (tree_children t);
  forecast_move := tree_forecast;
  is_winner := fun _ _ => false;
  is_loser := fun _ _ => false
}.

(** Two players on a board: only what the heuristic asks for. *)
Record position : Type := Position {
  pos_width : Z;
  pos_height : Z;
  pos_location : bool -> move;
  pos_moves : bool -> list move;
  pos_active : bool;
  pos_winner : bool -> bool;
  pos_loser : bool -> bool
}.

#[export] Instance Board_position : Board position bool := {
  width := pos_width;
  height := pos_height;
  get_player_location := pos_location;
  get_opponent := fun _ p => negb p;
  get_legal_moves := fun g p =>
    match p with
    | Some q => pos_moves g q
    | None => pos_moves g (pos_active g)
    end;
  forecast_move := fun g _ => g;
  is_winner := pos_winner;
  is_loser := pos_loser
}.

(** ** Examples to run *)

(** A state with no legal move. *)
Definition tip (p : move) (v : ext Z) : tree := Node p v [].

(** Two plies: the agent at [(3, 3)] moves to [(2, 3)] or to [(4, 4)], the
    opponent answers. After the first answer to [(4, 4)] the second one
    cannot matter any more. *)
Definition two_plies : tree :=
  Node (3, 3)%Z (Fin 0%Z)
    [ ((2, 3)%Z,
       Node (2, 3)%Z (Fin 1%Z)
         [ ((1, 1)%Z, tip (2, 3)%Z (Fin 4%Z));
           ((1, 2)%Z, tip (2, 3)%Z (Fin 2%Z)) ]);
      ((4, 4)%Z,
       Node (4, 4)%Z (Fin 5%Z)
         [ ((5, 5)%Z, tip (4, 4)%Z (Fin 1%Z));
           ((5, 6)%Z, tip (4, 4)%Z (Fin 7%Z)) ]) ].

(** An agent on trees: the heuristic reads the value of the state, the
    threshold is the default [10.]. *)
Definition tree_agent (depth : Z) (iterative : bool) (method : string)
    : CustomPlayer (ext Z) tree unit :=
  {| ident := tt; search_depth := depth; iterative := iterative;
     score := fun t _ => tree_value t; method := method;
     TIMER_THRESHOLD := Fin 10%Z |}.

(** Clocks: always 150 ms left; always the threshold itself; 150 ms for the
    first [n] calls and 5 ms from then on. *)
Definition steady : nat -> ext Z := fun _ => Fin 150%Z.
Definition at_threshold : nat -> ext Z := fun _ => Fin 10%Z.
Definition expiring (n : nat) : nat -> ext Z :=
  fun k => if (k <? n)%nat then Fin 150%Z else Fin 5%Z.

Definition fresh : world := World 0 0 0.

(** The agent [CustomPlayer()] of the defaults, as the player [true] of a
    [position], and a clock that stays at 150 ms. *)
Definition default_agent : CustomPlayer (ext R) position bool :=
  {| ident := true; search_depth := 3; iterative := true;
     score := custom_score; method := "minimax";
     TIMER_THRESHOLD := Fin 10%R |}.
Definition steady_R : nat -> ext R := fun _ => Fin 150%R.

(** Boards for the heuristic. The player [true] is the agent. *)
Definition no_end : bool -> bool := fun _ => false.

Definition even_board : position :=
  Position 4 4 (fun p => if p then (2, 2)%Z else (1, 1)%Z)
    (fun p => if p then [(0, 1)%Z; (3, 0)%Z] else [(3, 2)%Z]) true
    no_end no_end.

Definition tall_board : position :=
  Position 3 5 (fun p => if p then (2, 1)%Z else (1, 2)%Z)
    (fun p => if p then [(0, 0)%Z] else [(4, 1)%Z]) true no_end no_end.

Definition odd_board : position :=
  Position 7 7 (fun p => if p then (3, 3)%Z else (0, 6)%Z)
    (fun p => if p then [(1, 2)%Z; (5, 4)%Z] else [(2, 5)%Z]) true
    no_end no_end.

Definition lost_board : position :=
  Position 7 7 (fun p => if p then (0, 0)%Z else (2, 1)%Z)
    (fun p => if p then [] else [(4, 2)%Z]) true no_end (fun p => p).

Definition won_board : position :=
  Position 7 7 (fun p => if p then (2, 1)%Z else (0, 0)%Z)
    (fun p => if p then [(4, 2)%Z] else []) false (fun p => p) no_end.

(** The 7 by 7 board of [odd_board] with the agent at [loc]. *)
Definition agent_at (loc : move) : position :=
  Position 7 7 (fun p => if p then loc else (0, 6)%Z)
    (fun p => if p then [(1, 2)%Z; (5, 4)%Z] else [(2, 5)%Z]) true
    no_end no_end.

(** An agent on trees whose heuristic counts the moves open in the state. *)
Definition open_moves_agent (depth : Z) (iterative : bool) (method : string)
    : CustomPlayer (ext Z) tree unit :=
  {| ident := tt; search_depth := depth; iterative := iterative;
     score := fun t _ => Fin (Z.of_nat (List.length (tree_children t)));
     method := method; TIMER_THRESHOLD := Fin 10%Z |}.

(** ** The centre of the board, in the words of the specification *)

Section Centrality.
Context {game player : Type} `{Board game player}.

(** The geometric centre of the cells [(row, col)], [0 <= row < height] and
    [0 <= col < width]. *)
Definition geometric_center (g : game) : R * R :=
  ((IZR (height g) - 1) / 2, (IZR (width g) - 1) / 2)%R.

(** The cell the code measures from: [(width // 2, height // 2)]. *)
Definition mid_cell (g : game) : R * R :=
  (IZR (width g / 2), IZR (height g / 2)).

Definition euclidean_distance (p : move) (c : R * R) : R :=
  sqrt ((IZR (fst p) - fst c) ^ 2 + (IZR (snd p) - snd c) ^ 2).

Definition mobility_term (g : game) (p : player) : R :=
  IZR (Z.of_nat (List.length (get_legal_moves g (Some p)))
       - Z.of_nat (List.length (get_legal_moves g (Some (get_opponent g p))))).

(** [mobility_term + positional_term], distances taken from [c]. *)
Definition score_around (c : R * R) (g : game) (p : player) : R :=
  (mobility_term g p
   + (euclidean_distance (get_player_location g (get_opponent g p)) c
      - euclidean_distance (get_player_location g p) c))%R.
End Centrality.

(** ** How far a player is from the cell [(width // 2, height // 2)] *)

Section MidCell.
Context {game player : Type} `{Board game player}.

(** The number of king steps to the cell. *)
Definition mid_level (g : game) (p : player) : Z :=
  Z.max (Z.abs (width g / 2 - fst (get_player_location g p)))
        (Z.abs (height g / 2 - snd (get_player_location g p))).

(** The square of the straight distance to the cell. *)
Definition mid_distance2 (g : game) (p : player) : Z :=
  (fst (get_player_location g p) - width g / 2) ^ 2
  + (snd (get_player_location g p) - height g / 2) ^ 2.

Definition at_mid_cell (g : game) (p : player) : Prop :=
  get_player_location g p = (width g / 2, height g / 2)%Z.
End MidCell.

(** ** What a run does to the world *)

(** Whether a run ended in an exception. *)
Definition raised {A} (o : outcome A) : bool :=
  match o with
  | Raised _ => true
  | Returned _ => false
  end.

(** The world before a run, whether the run raised, the world after. *)
Definition effect : Type := world -> bool -> world -> Prop.

Definition has_effect {A} (P : effect) (run : M A) : Prop :=
  forall w, P w (raised (fst (run w))) (snd (run w)).

(** The counts of a run: [n] calls of a search method, as many queries of
    the clock, [e] evaluations of the score. *)
Definition call_counts (w w' : world) (n e : nat) : Prop :=
  time_queries w' = time_queries w + n
  /\ search_calls w' = search_calls w + n
  /\ score_calls w' = score_calls w + e.

Section EffectOfSearch.
Context {F game player : Type} `{Float F} `{Board game player}.
Variable self : CustomPlayer F game player.
Variable time_left : nat -> F.

(** An effect that holds of the steps of a search method and of their
    sequence: the entry of a call with its time check, raising or not, the
    leaf evaluation after it, and one step after another. *)
Record search_effect (P : effect) : Prop := {
  effect_ret : forall w, P w false w;
  effect_seq : forall w w1 b w2, P w false w1 -> P w1 b w2 -> P w b w2;
  effect_raise : forall w,
    flt (time_left (time_queries w)) (TIMER_THRESHOLD self) = true ->
    P w true (count_query (count_search w));
  effect_enter : forall w,
    flt (time_left (time_queries w)) (TIMER_THRESHOLD self) = false ->
    P w false (count_query (count_search w));
  effect_leaf : forall w,
    flt (time_left (time_queries w)) (TIMER_THRESHOLD self) = false ->
    P w false (count_score (count_query (count_search w)))
}.

(** As many queries as calls, and no more evaluations. *)
Definition paced : effect := fun w _ w' =>
  exists n e, e <= n /\ call_counts w w' n e.

(** The readings a run has taken: all at or above the threshold, but the
    last one when the run raised. *)
Definition clocked : effect := fun w b w' =>
  if b
  then time_queries w < time_queries w'
       /\ flt (time_left (pred (time_queries w'))) (TIMER_THRESHOLD self)
          = true
       /\ ample self time_left (time_queries w)
            (pred (time_queries w') - time_queries w)
  else time_queries w <= time_queries w'
       /\ ample self time_left (time_queries w)
            (time_queries w' - time_queries w).
End EffectOfSearch.

(** [x] lies between [lo] and [hi]. *)
Definition within {F} `{Float F} (lo hi x : F) : Prop :=
  flt x lo = false /\ flt hi x = false.

(** * Properties *)

(** ** The heuristic *)

Section HeuristicFacts.
Context {game player : Type} `{Board game player}.

Lemma diff_distance_from_mid_score_around (g : game) (p : player) :
  diff_distance_from_mid g p = score_around (mid_cell g) g p.
Proof.
  unfold diff_distance_from_mid, score_around, euclidean_distance,
    mobility_term, mid_cell.
  destruct (get_player_location g p) as [own_row own_col].
  destruct (get_player_location g (get_opponent g p)) as [opp_row opp_col].
  cbn [fst snd]. rewrite !minus_IZR. reflexivity.
Qed.

(** On a square board of odd side the cell the code measures from is the
    geometric centre. *)
Lemma mid_cell_odd_square (g : game) :
  width g = height g -> Z.odd (width g) = true ->
  mid_cell g = geometric_center g.
Proof.
  intros Hsq Hodd. unfold mid_cell, geometric_center. rewrite <- Hsq.
  assert (E : width g = (2 * (width g / 2) + 1)%Z).
  { rewrite (Zdiv2_odd_eqn (width g)) at 1. rewrite Hodd.
    rewrite Z.div2_div. reflexivity. }
  assert (ER : IZR (width g) = (2 * IZR (width g / 2) + 1)%R).
  { rewrite E at 1. rewrite plus_IZR, mult_IZR. reflexivity. }
  rewrite ER. f_equal; field.
Qed.

(** Outside the won and lost states the score is the one around the cell
    [(width // 2, height // 2)], on every board. *)
Lemma custom_score_mid_cell (g : game) (p : player) :
  is_loser g p = false -> is_winner g p = false ->
  custom_score g p = Fin (score_around (mid_cell g) g p).
Proof.
  intros Hl Hw. unfold custom_score. rewrite Hl, Hw.
  rewrite diff_distance_from_mid_score_around. reflexivity.
Qed.

(** C8. A state that reports the player lost is scored [float("-inf")], one
    that reports the player won is scored [float("inf")]; the loss is looked
    at first, so the state must not report both. *)
Theorem custom_score_terminal (g : game) (p : player) :
  ~ (is_loser g p = true /\ is_winner g p = true) ->
  (is_loser g p = true -> custom_score g p = NInf)
  /\ (is_winner g p = true -> custom_score g p = PInf).
Proof.
  intros Hexcl. unfold custom_score. split; intros Hend.
  - rewrite Hend. reflexivity.
  - destruct (is_loser g p) eqn:Hl.
    + exfalso. apply Hexcl. split; [reflexivity | exact Hend].
    + rewrite Hend. reflexivity.
Qed.

(** C2, as the code has it. In a state where the player has neither won nor
    lost, on a square board, the score is the difference of the numbers of
    legal moves plus the distance of the opponent minus the distance of the
    player, both taken from the cell [(width // 2, height // 2)]; when the
    side is odd that cell is the geometric centre of the board. *)
Theorem custom_score_non_terminal (g : game) (p : player) :
  is_loser g p = false -> is_winner g p = false ->
  width g = height g ->
  custom_score g p = Fin (score_around (mid_cell g) g p)
  /\ (Z.odd (width g) = true ->
      custom_score g p = Fin (score_around (geometric_center g) g p)).
Proof.
  intros Hl Hw Hsq.
  pose proof (custom_score_mid_cell g p Hl Hw) as E.
  split; [exact E |].
  intros Hodd. rewrite E, (mid_cell_odd_square g Hsq Hodd). reflexivity.
Qed.
End HeuristicFacts.

(** ** Total orders *)

Section OrderFacts.
Context {F : Type} `{FloatOrder F}.

Lemma flt_le_trans (x y z : F) :
  flt x y = true -> flt z y = false -> flt x z = true.
Proof.
  intros Hxy Hyz. destruct (flt x z) eqn:Hxz; [reflexivity |].
  destruct (flt z x) eqn:Hzx.
  - rewrite (flt_trans _ _ _ Hzx Hxy) in Hyz. discriminate.
  - rewrite (flt_connex _ _ Hxz Hzx) in Hxy. congruence.
Qed.

Lemma fle_lt_trans (x y z : F) :
  flt y x = false -> flt y z = true -> flt x z = true.
Proof.
  intros Hxy Hyz. destruct (flt x z) eqn:Hxz; [reflexivity |].
  destruct (flt z x) eqn:Hzx.
  - rewrite (flt_trans _ _ _ Hyz Hzx) in Hxy. discriminate.
  - rewrite <- (flt_connex _ _ Hxz Hzx) in Hyz. congruence.
Qed.

Lemma fle_trans (x y z : F) :
  flt y x = false -> flt z y = false -> flt z x = false.
Proof.
  intros Hxy Hyz. destruct (flt z x) eqn:Hzx; [| reflexivity].
  rewrite (flt_le_trans _ _ _ Hzx Hxy) in Hyz. discriminate.
Qed.

Lemma flt_asym (x y : F) : flt x y = true -> flt y x = false.
Proof.
  intros Hxy. destruct (flt y x) eqn:Hyx; [| reflexivity].
  rewrite <- (flt_irrefl x). symmetry. exact (flt_trans _ _ _ Hxy Hyx).
Qed.
End OrderFacts.

(** Deciding goals about a handful of values of a total order: the facts at
    hand are closed under transitivity, then a value below itself or a
    comparison with both answers ends the case. *)
Ltac order_learn H :=
  let T := type of H in
  lazymatch goal with
  | _ : T |- _ => fail
  | _ => pose proof H
  end.

Ltac order_step :=
  match goal with
  | H : true = false |- _ => discriminate H
  | H : false = true |- _ => discriminate H
  | H : flt ?x ?x = true |- _ =>
      rewrite flt_irrefl in H; discriminate H
  | H1 : flt ?x ?y = true, H2 : flt ?x ?y = false |- _ =>
      rewrite H1 in H2; discriminate H2
  | H1 : flt ?x ?y = true, H2 : flt ?y ?z = true |- _ =>
      order_learn (flt_trans _ _ _ H1 H2)
  | H1 : flt ?x ?y = true, H2 : flt ?z ?y = false |- _ =>
      order_learn (flt_le_trans _ _ _ H1 H2)
  | H1 : flt ?y ?x = false, H2 : flt ?y ?z = true |- _ =>
      order_learn (fle_lt_trans _ _ _ H1 H2)
  | H1 : flt ?y ?x = false, H2 : flt ?z ?y = false |- _ =>
      order_learn (fle_trans _ _ _ H1 H2)
  | H : flt ?x ninf = true |- _ =>
      rewrite ninf_least in H; discriminate H
  | H : flt pinf ?x = true |- _ =>
      rewrite pinf_greatest in H; discriminate H
  | H : flt ?x pinf = false |- _ =>
      order_learn (pinf_greatest x)
  | H : flt ninf ?x = false |- _ =>
      order_learn (ninf_least x)
  end.

Ltac order_close := repeat order_step.

Ltac order :=
  try assumption; try solve [exfalso; order_close];
  lazymatch goal with
  | |- flt ?x ?y = true =>
      let G := fresh "G" in
      destruct (flt x y) eqn:G; [reflexivity | exfalso; order_close]
  | |- flt ?x ?y = false =>
      let G := fresh "G" in
      destruct (flt x y) eqn:G; [exfalso; order_close | reflexivity]
  | |- @eq bool _ _ => fail "not a comparison"
  | |- ?x = ?y => apply flt_connex; order
  | |- False => order_close
  | |- _ => fail "not an order goal"
  end.

(** ** The search and the clock *)

Section SearchFacts.
Context {F game player : Type} `{Float F} `{Board game player}.
Variable self : CustomPlayer F game player.
Variable time_left : nat -> F.

Local Abbreviation thr := (TIMER_THRESHOLD self).
Local Abbreviation tq := time_queries.

Lemma minimax_plies_eq (d : nat) (g : game) (mx : bool) :
  minimax_plies self time_left d g mx
  = (enter_search ;; check_time self time_left ;;
     minimax_expand self time_left d g mx).
Proof. destruct d; reflexivity. Qed.

Lemma alphabeta_plies_eq (d : nat) (g : game) (a b : F) (mx : bool) :
  alphabeta_plies self time_left d g a b mx
  = (enter_search ;; check_time self time_left ;;
     alphabeta_expand self time_left d g a b mx).
Proof. destruct d; reflexivity. Qed.

(** The entry of a search method, run. *)
Lemma entry_run {A} (k : M A) (w : world) :
  (enter_search ;; check_time self time_left ;; k) w
  = if flt (time_left (time_queries w)) thr
    then (Raised Timeout, count_query (count_search w))
    else k (count_query (count_search w)).
Proof.
  unfold bind, enter_search, check_time, bind, query_time, raise, ret.
  cbn. destruct (flt _ _); reflexivity.
Qed.

Lemma leaf_run (g : game) (w : world) :
  leaf self g w = (Returned (leaf_value self g), count_score w).
Proof. reflexivity. Qed.


(** *** The methods as the source writes them, on an integer depth *)

Lemma minimax_unfold (g : game) (depth : Z) (maximizing_player : bool) :
  minimax self time_left g depth maximizing_player
  = (enter_search ;;
     check_time self time_left ;;
     match get_legal_moves g None with
     | [] => leaf self g
     | first :: _ =>
         if (depth <? 1)%Z then leaf self g
         else if maximizing_player
         then minimax_max_loop
                (fun g' => minimax self time_left g' (depth - 1) false)
                g (get_legal_moves g None) ninf first
         else minimax_min_loop
                (fun g' => minimax self time_left g' (depth - 1) true)
                g (get_legal_moves g None) pinf first
     end).
Proof.
  unfold minimax. destruct (Z.ltb_spec depth 1) as [Hd | Hd].
  - replace (Z.to_nat depth) with 0 by lia.
    cbn [minimax_plies]. destruct (get_legal_moves g None); reflexivity.
  - replace (Z.to_nat depth) with (S (Z.to_nat (depth - 1))) by lia.
    reflexivity.
Qed.

Lemma alphabeta_unfold (g : game) (depth : Z) (alpha beta : F)
    (maximizing_player : bool) :
  alphabeta self time_left g depth alpha beta maximizing_player
  = (enter_search ;;
     check_time self time_left ;;
     match get_legal_moves g None with
     | [] => leaf self g
     | first :: _ =>
         if (depth <? 1)%Z then leaf self g
         else if maximizing_player
         then alphabeta_max_loop
                (fun g' a b =>
                   alphabeta self time_left g' (depth - 1) a b false)
                g (get_legal_moves g None) alpha beta ninf first
         else alphabeta_min_loop
                (fun g' a b =>
                   alphabeta self time_left g' (depth - 1) a b true)
                g (get_legal_moves g None) alpha beta pinf first
     end).
Proof.
  unfold alphabeta. destruct (Z.ltb_spec depth 1) as [Hd | Hd].
  - replace (Z.to_nat depth) with 0 by lia.
    cbn [alphabeta_plies]. destruct (get_legal_moves g None); reflexivity.
  - replace (Z.to_nat depth) with (S (Z.to_nat (depth - 1))) by lia.
    reflexivity.
Qed.

(** *** Readings that all reach the threshold *)

Lemma ample_app (c n m : nat) :
  ample self time_left c n -> ample self time_left (c + n) m ->
  ample self time_left c (n + m).
Proof.
  intros Hn Hm i Hi. destruct (Nat.lt_ge_cases i n) as [Hlt | Hge].
  - apply Hn, Hlt.
  - replace (c + i) with (c + n + (i - n)) by lia. apply Hm. lia.
Qed.

Lemma ample_sub (c n c' n' : nat) :
  ample self time_left c n -> c <= c' -> c' + n' <= c + n ->
  ample self time_left c' n'.
Proof.
  intros Hn Hc Hle i Hi.
  replace (c' + i) with (c + (c' - c + i)) by lia. apply Hn. lia.
Qed.

Lemma ample_one (c : nat) :
  flt (time_left c) thr = false -> ample self time_left c 1.
Proof.
  intros Hc i Hi. replace (c + i) with c by lia. exact Hc.
Qed.

Lemma ample_first (c n : nat) :
  ample self time_left c (S n) -> flt (time_left c) thr = false.
Proof.
  intros Hn. replace c with (c + 0) by lia. apply Hn. lia.
Qed.

(** *** What a call that returns has seen *)


Lemma minimax_max_value_calls (recv : game -> @visit F) (g : game)
    (moves : list move) :
  forall s m calls,
    calls <= snd (minimax_max_value recv g moves s m calls).
Proof.
  induction moves as [| mv rest IH]; intros s m calls; cbn.
  - lia.
  - destruct (recv (forecast_move g mv)) as [r k].
    destruct (fgt (fst r) s);
      (eapply Nat.le_trans; [| apply IH]); lia.
Qed.

Lemma minimax_min_value_calls (recv : game -> @visit F) (g : game)
    (moves : list move) :
  forall s m calls,
    calls <= snd (minimax_min_value recv g moves s m calls).
Proof.
  induction moves as [| mv rest IH]; intros s m calls; cbn.
  - lia.
  - destruct (recv (forecast_move g mv)) as [r k].
    destruct (flt (fst r) s);
      (eapply Nat.le_trans; [| apply IH]); lia.
Qed.

Lemma minimax_max_loop_returns (rec : game -> M (result F))
    (recv : game -> @visit F) (g : game) :
  (forall g', returns_value self time_left (rec g') (recv g')) ->
  forall moves s m calls c0 w r w',
    tq w = c0 + calls -> ample self time_left c0 calls ->
    minimax_max_loop rec g moves s m w = (Returned r, w') ->
    ample self time_left c0 (snd (minimax_max_value recv g moves s m calls))
    /\ r = fst (minimax_max_value recv g moves s m calls)
    /\ tq w' = c0 + snd (minimax_max_value recv g moves s m calls).
Proof.
  intros Hrec.
  induction moves as [| mv rest IH]; intros s m calls c0 w r w' Hw Hc Hrun.
  - cbn in *. inversion Hrun; subst. auto.
  - cbn in Hrun |- *. unfold bind in Hrun.
    destruct (rec (forecast_move g mv) w) as [[r1 | e] w1] eqn:E;
      [| discriminate].
    destruct (Hrec _ _ _ _ E) as (Ha & -> & Hq).
    destruct (recv (forecast_move g mv)) as [rv k]. cbn [fst snd] in *.
    assert (Hc' : ample self time_left c0 (calls + k)).
    { apply ample_app; [exact Hc |]. rewrite <- Hw. exact Ha. }
    destruct (fgt (fst rv) s);
      (eapply IH; [| exact Hc' | exact Hrun]; lia).
Qed.

Lemma minimax_min_loop_returns (rec : game -> M (result F))
    (recv : game -> @visit F) (g : game) :
  (forall g', returns_value self time_left (rec g') (recv g')) ->
  forall moves s m calls c0 w r w',
    tq w = c0 + calls -> ample self time_left c0 calls ->
    minimax_min_loop rec g moves s m w = (Returned r, w') ->
    ample self time_left c0 (snd (minimax_min_value recv g moves s m calls))
    /\ r = fst (minimax_min_value recv g moves s m calls)
    /\ tq w' = c0 + snd (minimax_min_value recv g moves s m calls).
Proof.
  intros Hrec.
  induction moves as [| mv rest IH]; intros s m calls c0 w r w' Hw Hc Hrun.
  - cbn in *. inversion Hrun; subst. auto.
  - cbn in Hrun |- *. unfold bind in Hrun.
    destruct (rec (forecast_move g mv) w) as [[r1 | e] w1] eqn:E;
      [| discriminate].
    destruct (Hrec _ _ _ _ E) as (Ha & -> & Hq).
    destruct (recv (forecast_move g mv)) as [rv k]. cbn [fst snd] in *.
    assert (Hc' : ample self time_left c0 (calls + k)).
    { apply ample_app; [exact Hc |]. rewrite <- Hw. exact Ha. }
    destruct (flt (fst rv) s);
      (eapply IH; [| exact Hc' | exact Hrun]; lia).
Qed.

Lemma minimax_plies_returns (d : nat) :
  forall g mx,
    returns_value self time_left (minimax_plies self time_left d g mx)
      (minimax_value self d g mx).
Proof.
  induction d as [| d IH]; intros g mx w r w' Hrun;
    rewrite minimax_plies_eq, entry_run in Hrun;
    destruct (flt (time_left (tq w)) thr) eqn:Ht; try discriminate.
  - change (minimax_expand self time_left 0 g mx) with (leaf self g) in Hrun.
    rewrite leaf_run in Hrun; inversion Hrun; subst; cbn.
    split; [apply ample_one, Ht | split; [reflexivity | lia]].
  - unfold minimax_expand in Hrun. cbn [minimax_value].
    destruct (get_legal_moves g None) as [| first rest] eqn:Hm.
    + rewrite leaf_run in Hrun; inversion Hrun; subst; cbn;
      (split; [apply ample_one, Ht | split; [reflexivity | lia]]).
    + destruct mx.
      * eapply minimax_max_loop_returns in Hrun;
          [exact Hrun | intros g'; apply IH | cbn; lia | apply ample_one, Ht].
      * eapply minimax_min_loop_returns in Hrun;
          [exact Hrun | intros g'; apply IH | cbn; lia | apply ample_one, Ht].
Qed.

Lemma minimax_max_loop_value (rec : game -> M (result F))
    (recv : game -> @visit F) (g : game) :
  (forall g', value_returned self time_left (rec g') (recv g')) ->
  forall moves s m calls c0 w,
    tq w = c0 + calls ->
    ample self time_left c0 (snd (minimax_max_value recv g moves s m calls)) ->
    exists w',
      minimax_max_loop rec g moves s m w
      = (Returned (fst (minimax_max_value recv g moves s m calls)), w')
      /\ tq w' = c0 + snd (minimax_max_value recv g moves s m calls).
Proof.
  intros Hrec.
  induction moves as [| mv rest IH]; intros s m calls c0 w Hw Hc.
  - cbn in *. exists w. split; [reflexivity | lia].
  - cbn in Hc |- *. unfold bind.
    pose proof (Hrec (forecast_move g mv) w) as Hchild.
    destruct (recv (forecast_move g mv)) as [rv k]. cbn [fst snd] in *.
    destruct Hchild as (w1 & -> & Hq).
    { eapply ample_sub; [exact Hc | lia |].
      rewrite Hw. pose proof (minimax_max_value_calls recv g rest) as Hle.
      destruct (fgt (fst rv) s);
        match goal with
        | |- context [minimax_max_value recv g rest ?s' ?m' (calls + k)] =>
            specialize (Hle s' m' (calls + k))
        end; lia. }
    destruct (fgt (fst rv) s); apply IH; solve [lia | exact Hc].
Qed.

Lemma minimax_min_loop_value (rec : game -> M (result F))
    (recv : game -> @visit F) (g : game) :
  (forall g', value_returned self time_left (rec g') (recv g')) ->
  forall moves s m calls c0 w,
    tq w = c0 + calls ->
    ample self time_left c0 (snd (minimax_min_value recv g moves s m calls)) ->
    exists w',
      minimax_min_loop rec g moves s m w
      = (Returned (fst (minimax_min_value recv g moves s m calls)), w')
      /\ tq w' = c0 + snd (minimax_min_value recv g moves s m calls).
Proof.
  intros Hrec.
  induction moves as [| mv rest IH]; intros s m calls c0 w Hw Hc.
  - cbn in *. exists w. split; [reflexivity | lia].
  - cbn in Hc |- *. unfold bind.
    pose proof (Hrec (forecast_move g mv) w) as Hchild.
    destruct (recv (forecast_move g mv)) as [rv k]. cbn [fst snd] in *.
    destruct Hchild as (w1 & -> & Hq).
    { eapply ample_sub; [exact Hc | lia |].
      rewrite Hw. pose proof (minimax_min_value_calls recv g rest) as Hle.
      destruct (flt (fst rv) s);
        match goal with
        | |- context [minimax_min_value recv g rest ?s' ?m' (calls + k)] =>
            specialize (Hle s' m' (calls + k))
        end; lia. }
    destruct (flt (fst rv) s); apply IH; solve [lia | exact Hc].
Qed.

(** With ample time [minimax] returns: the search is total, and the clock
    is the only thing that stops it. *)
Lemma minimax_plies_value (d : nat) :
  forall g mx,
    value_returned self time_left (minimax_plies self time_left d g mx)
      (minimax_value self d g mx).
Proof.
  induction d as [| d IH]; intros g mx w Hc;
    rewrite minimax_plies_eq, entry_run.
  - cbn in Hc. rewrite (ample_first Hc).
    change (minimax_expand self time_left 0 g mx) with (leaf self g).
    rewrite leaf_run. eexists; split; [reflexivity | cbn; lia].
  - assert (Ht : flt (time_left (tq w)) thr = false).
    { pose proof (minimax_max_value_calls
                    (fun g' => minimax_value self d g' false) g) as H1.
      pose proof (minimax_min_value_calls
                    (fun g' => minimax_value self d g' true) g) as H2.
      cbn [minimax_value] in Hc.
      destruct (get_legal_moves g None) as [| first rest];
        [apply (ample_first Hc) |].
      destruct mx;
        [specialize (H1 (first :: rest) ninf first 1)
        | specialize (H2 (first :: rest) pinf first 1)];
        (apply ample_first with (n := 0);
         eapply ample_sub; [exact Hc | lia | lia]). }
    rewrite Ht. unfold minimax_expand. cbn [minimax_value] in Hc |- *.
    destruct (get_legal_moves g None) as [| first rest] eqn:Hm.
    + rewrite leaf_run. eexists; split; [reflexivity | cbn; lia].
    + destruct mx.
      * apply minimax_max_loop_value;
          [intros g'; apply IH | cbn; lia | exact Hc].
      * apply minimax_min_loop_value;
          [intros g'; apply IH | cbn; lia | exact Hc].
Qed.

Lemma alphabeta_max_value_calls (recv : game -> F -> F -> @visit F)
    (g : game) (moves : list move) :
  forall a b s m calls,
    calls <= snd (alphabeta_max_value recv g moves a b s m calls).
Proof.
  induction moves as [| mv rest IH]; intros a b s m calls; cbn.
  - lia.
  - destruct (recv (forecast_move g mv) a b) as [r k].
    destruct (fgt (fst r) s); cbn;
      (destruct (fle b _); cbn;
       [lia | (eapply Nat.le_trans; [| apply IH]); lia]).
Qed.

Lemma alphabeta_min_value_calls (recv : game -> F -> F -> @visit F)
    (g : game) (moves : list move) :
  forall a b s m calls,
    calls <= snd (alphabeta_min_value recv g moves a b s m calls).
Proof.
  induction moves as [| mv rest IH]; intros a b s m calls; cbn.
  - lia.
  - destruct (recv (forecast_move g mv) a b) as [r k].
    destruct (flt (fst r) s); cbn;
      (destruct (fle _ a); cbn;
       [lia | (eapply Nat.le_trans; [| apply IH]); lia]).
Qed.

Lemma alphabeta_max_loop_value (rec : game -> F -> F -> M (result F))
    (recv : game -> F -> F -> @visit F) (g : game) :
  (forall g' a b, value_returned self time_left (rec g' a b) (recv g' a b)) ->
  forall moves a b s m calls c0 w,
    tq w = c0 + calls ->
    ample self time_left c0
      (snd (alphabeta_max_value recv g moves a b s m calls)) ->
    exists w',
      alphabeta_max_loop rec g moves a b s m w
      = (Returned (fst (alphabeta_max_value recv g moves a b s m calls)), w')
      /\ tq w' = c0 + snd (alphabeta_max_value recv g moves a b s m calls).
Proof.
  intros Hrec.
  induction moves as [| mv rest IH]; intros a b s m calls c0 w Hw Hc.
  - cbn in *. exists w. split; [reflexivity | lia].
  - cbn in Hc |- *. unfold bind.
    pose proof (Hrec (forecast_move g mv) a b w) as Hchild.
    destruct (recv (forecast_move g mv) a b) as [rv k]. cbn [fst snd] in *.
    destruct Hchild as (w1 & -> & Hq).
    { eapply ample_sub; [exact Hc | lia |].
      rewrite Hw.
      destruct (fgt (fst rv) s); cbn;
        (destruct (fle b _); cbn;
         [lia | pose proof (alphabeta_max_value_calls recv g rest) as Hle;
                 match goal with
                 | |- context [alphabeta_max_value recv g rest ?a' b ?s' ?m'
                                 (calls + k)] =>
                     specialize (Hle a' b s' m' (calls + k))
                 end; lia]). }
    destruct (fgt (fst rv) s); cbn in Hc |- *;
      (destruct (fle b _); cbn in Hc |- *;
       [exists w1; split; [reflexivity | lia]
       | apply IH; [lia | exact Hc]]).
Qed.

Lemma alphabeta_min_loop_value (rec : game -> F -> F -> M (result F))
    (recv : game -> F -> F -> @visit F) (g : game) :
  (forall g' a b, value_returned self time_left (rec g' a b) (recv g' a b)) ->
  forall moves a b s m calls c0 w,
    tq w = c0 + calls ->
    ample self time_left c0
      (snd (alphabeta_min_value recv g moves a b s m calls)) ->
    exists w',
      alphabeta_min_loop rec g moves a b s m w
      = (Returned (fst (alphabeta_min_value recv g moves a b s m calls)), w')
      /\ tq w' = c0 + snd (alphabeta_min_value recv g moves a b s m calls).
Proof.
  intros Hrec.
  induction moves as [| mv rest IH]; intros a b s m calls c0 w Hw Hc.
  - cbn in *. exists w. split; [reflexivity | lia].
  - cbn in Hc |- *. unfold bind.
    pose proof (Hrec (forecast_move g mv) a b w) as Hchild.
    destruct (recv (forecast_move g mv) a b) as [rv k]. cbn [fst snd] in *.
    destruct Hchild as (w1 & -> & Hq).
    { eapply ample_sub; [exact Hc | lia |].
      rewrite Hw.
      destruct (flt (fst rv) s); cbn;
        (destruct (fle _ a); cbn;
         [lia | pose proof (alphabeta_min_value_calls recv g rest) as Hle;
                 match goal with
                 | |- context [alphabeta_min_value recv g rest a ?b' ?s' ?m'
                                 (calls + k)] =>
                     specialize (Hle a b' s' m' (calls + k))
                 end; lia]). }
    destruct (flt (fst rv) s); cbn in Hc |- *;
      (destruct (fle _ a); cbn in Hc |- *;
       [exists w1; split; [reflexivity | lia]
       | apply IH; [lia | exact Hc]]).
Qed.

Lemma alphabeta_plies_value (d : nat) :
  forall g a b mx,
    value_returned self time_left (alphabeta_plies self time_left d g a b mx)
      (alphabeta_value self d g a b mx).
Proof.
  induction d as [| d IH]; intros g a b mx w Hc;
    rewrite alphabeta_plies_eq, entry_run.
  - cbn in Hc. rewrite (ample_first Hc).
    change (alphabeta_expand self time_left 0 g a b mx) with (leaf self g).
    rewrite leaf_run. eexists; split; [reflexivity | cbn; lia].
  - assert (Ht : flt (time_left (tq w)) thr = false).
    { pose proof (alphabeta_max_value_calls
                    (fun g' a b => alphabeta_value self d g' a b false) g)
        as H1.
      pose proof (alphabeta_min_value_calls
                    (fun g' a b => alphabeta_value self d g' a b true) g) as H2.
      cbn [alphabeta_value] in Hc.
      destruct (get_legal_moves g None) as [| first rest];
        [apply (ample_first Hc) |].
      destruct mx;
        [specialize (H1 (first :: rest) a b ninf first 1)
        | specialize (H2 (first :: rest) a b pinf first 1)];
        (apply ample_first with (n := 0);
         eapply ample_sub; [exact Hc | lia | lia]). }
    rewrite Ht. unfold alphabeta_expand. cbn [alphabeta_value] in Hc |- *.
    destruct (get_legal_moves g None) as [| first rest] eqn:Hm.
    + rewrite leaf_run. eexists; split; [reflexivity | cbn; lia].
    + destruct mx.
      * apply alphabeta_max_loop_value;
          [intros g' a' b'; apply IH | cbn; lia | exact Hc].
      * apply alphabeta_min_loop_value;
          [intros g' a' b'; apply IH | cbn; lia | exact Hc].
Qed.


Lemma alphabeta_max_loop_returns (rec : game -> F -> F -> M (result F))
    (recv : game -> F -> F -> @visit F) (g : game) :
  (forall g' a b, returns_value self time_left (rec g' a b) (recv g' a b)) ->
  forall moves a b s m calls c0 w r w',
    tq w = c0 + calls -> ample self time_left c0 calls ->
    alphabeta_max_loop rec g moves a b s m w = (Returned r, w') ->
    ample self time_left c0
      (snd (alphabeta_max_value recv g moves a b s m calls))
    /\ r = fst (alphabeta_max_value recv g moves a b s m calls)
    /\ tq w' = c0 + snd (alphabeta_max_value recv g moves a b s m calls).
Proof.
  intros Hrec.
  induction moves as [| mv rest IH];
    intros a b s m calls c0 w r w' Hw Hc Hrun.
  - cbn in *. inversion Hrun; subst. auto.
  - cbn in Hrun |- *. unfold bind in Hrun.
    destruct (rec (forecast_move g mv) a b w) as [[r1 | e] w1] eqn:E;
      [| discriminate].
    destruct (Hrec _ _ _ _ _ _ E) as (Ha & -> & Hq).
    destruct (recv (forecast_move g mv) a b) as [rv k].
    cbn [fst snd] in *.
    assert (Hc' : ample self time_left c0 (calls + k)).
    { apply ample_app; [exact Hc |]. rewrite <- Hw. exact Ha. }
    destruct (fgt (fst rv) s); cbn in Hrun |- *;
      (destruct (fle b _); cbn;
       [inversion Hrun; subst; repeat split; [exact Hc' | lia]
       | eapply IH; [| exact Hc' | exact Hrun]; lia]).
Qed.

Lemma alphabeta_min_loop_returns (rec : game -> F -> F -> M (result F))
    (recv : game -> F -> F -> @visit F) (g : game) :
  (forall g' a b, returns_value self time_left (rec g' a b) (recv g' a b)) ->
  forall moves a b s m calls c0 w r w',
    tq w = c0 + calls -> ample self time_left c0 calls ->
    alphabeta_min_loop rec g moves a b s m w = (Returned r, w') ->
    ample self time_left c0
      (snd (alphabeta_min_value recv g moves a b s m calls))
    /\ r = fst (alphabeta_min_value recv g moves a b s m calls)
    /\ tq w' = c0 + snd (alphabeta_min_value recv g moves a b s m calls).
Proof.
  intros Hrec.
  induction moves as [| mv rest IH];
    intros a b s m calls c0 w r w' Hw Hc Hrun.
  - cbn in *. inversion Hrun; subst. auto.
  - cbn in Hrun |- *. unfold bind in Hrun.
    destruct (rec (forecast_move g mv) a b w) as [[r1 | e] w1] eqn:E;
      [| discriminate].
    destruct (Hrec _ _ _ _ _ _ E) as (Ha & -> & Hq).
    destruct (recv (forecast_move g mv) a b) as [rv k].
    cbn [fst snd] in *.
    assert (Hc' : ample self time_left c0 (calls + k)).
    { apply ample_app; [exact Hc |]. rewrite <- Hw. exact Ha. }
    destruct (flt (fst rv) s); cbn in Hrun |- *;
      (destruct (fle _ a); cbn;
       [inversion Hrun; subst; repeat split; [exact Hc' | lia]
       | eapply IH; [| exact Hc' | exact Hrun]; lia]).
Qed.

Lemma alphabeta_plies_returns (d : nat) :
  forall g a b mx,
    returns_value self time_left (alphabeta_plies self time_left d g a b mx)
      (alphabeta_value self d g a b mx).
Proof.
  induction d as [| d IH]; intros g a b mx w r w' Hrun;
    rewrite alphabeta_plies_eq, entry_run in Hrun;
    destruct (flt (time_left (tq w)) thr) eqn:Ht; try discriminate.
  - change (alphabeta_expand self time_left 0 g a b mx) with (leaf self g)
      in Hrun.
    rewrite leaf_run in Hrun; inversion Hrun; subst; cbn.
    split; [apply ample_one, Ht | split; [reflexivity | lia]].
  - unfold alphabeta_expand in Hrun. cbn [alphabeta_value].
    destruct (get_legal_moves g None) as [| first rest] eqn:Hm.
    + rewrite leaf_run in Hrun; inversion Hrun; subst; cbn;
      (split; [apply ample_one, Ht | split; [reflexivity | lia]]).
    + destruct mx.
      * eapply alphabeta_max_loop_returns in Hrun;
          [exact Hrun | intros g' a' b'; apply IH | cbn; lia
          | apply ample_one, Ht].
      * eapply alphabeta_min_loop_returns in Hrun;
          [exact Hrun | intros g' a' b'; apply IH | cbn; lia
          | apply ample_one, Ht].
Qed.

(** *** Pruning never adds calls *)

Lemma alphabeta_max_calls_le (rab : game -> F -> F -> @visit F)
    (rmm : game -> @visit F) (g : game) :
  (forall g' a b, snd (rab g' a b) <= snd (rmm g')) ->
  forall moves a b s m s' m' calls calls',
    calls <= calls' ->
    snd (alphabeta_max_value rab g moves a b s m calls)
    <= snd (minimax_max_value rmm g moves s' m' calls').
Proof.
  intros Hrec.
  induction moves as [| mv rest IH]; intros a b s m s' m' calls calls' Hle;
    cbn.
  - exact Hle.
  - specialize (Hrec (forecast_move g mv) a b).
    destruct (rab (forecast_move g mv) a b) as [r k].
    destruct (rmm (forecast_move g mv)) as [r' k']. cbn [fst snd] in *.
    pose proof (minimax_max_value_calls rmm g rest) as Hmono.
    destruct (fgt (fst r) s), (fgt (fst r') s'); cbn;
      (destruct (fle b _); cbn;
       [(eapply Nat.le_trans; [| apply Hmono]); lia | apply IH; lia]).
Qed.

Lemma alphabeta_min_calls_le (rab : game -> F -> F -> @visit F)
    (rmm : game -> @visit F) (g : game) :
  (forall g' a b, snd (rab g' a b) <= snd (rmm g')) ->
  forall moves a b s m s' m' calls calls',
    calls <= calls' ->
    snd (alphabeta_min_value rab g moves a b s m calls)
    <= snd (minimax_min_value rmm g moves s' m' calls').
Proof.
  intros Hrec.
  induction moves as [| mv rest IH]; intros a b s m s' m' calls calls' Hle;
    cbn.
  - exact Hle.
  - specialize (Hrec (forecast_move g mv) a b).
    destruct (rab (forecast_move g mv) a b) as [r k].
    destruct (rmm (forecast_move g mv)) as [r' k']. cbn [fst snd] in *.
    pose proof (minimax_min_value_calls rmm g rest) as Hmono.
    destruct (flt (fst r) s), (flt (fst r') s'); cbn;
      (destruct (fle _ a); cbn;
       [(eapply Nat.le_trans; [| apply Hmono]); lia | apply IH; lia]).
Qed.

Lemma alphabeta_value_calls_le (d : nat) :
  forall g a b mx,
    snd (alphabeta_value self d g a b mx) <= snd (minimax_value self d g mx).
Proof.
  induction d as [| d IH]; intros g a b mx; cbn.
  - destruct (get_legal_moves g None); cbn; lia.
  - destruct (get_legal_moves g None) as [| first rest]; [cbn; lia |].
    destruct mx.
    + apply alphabeta_max_calls_le; [intros; apply IH | lia].
    + apply alphabeta_min_calls_le; [intros; apply IH | lia].
Qed.


End SearchFacts.

(** ** Pruning *)

Ltac fail_soft_premises :=
  repeat match goal with
  | H : ?x = ?x -> _ |- _ => specialize (H eq_refl)
  | H : true = false -> _ |- _ => clear H
  | H : false = true -> _ |- _ => clear H
  end.

Section Pruning.
Context {F game player : Type} `{FloatOrder F} `{Board game player}.
Variable self : CustomPlayer F game player.

Lemma minimax_max_value_ge (rmm : game -> @visit F) (g : game)
    (moves : list move) :
  forall m mv c,
    flt (fst (fst (minimax_max_value rmm g moves m mv c))) m = false.
Proof.
  induction moves as [| x rest IH]; intros m mv c; cbn.
  - apply flt_irrefl.
  - destruct (rmm (forecast_move g x)) as [[v mvv] k]. cbn [fst snd].
    unfold fgt. destruct (flt m v) eqn:E.
    + specialize (IH v x (c + k)). order.
    + apply IH.
Qed.

Lemma alphabeta_max_fail_soft (rab : game -> F -> F -> @visit F)
    (rmm : game -> @visit F) (g : game) :
  (forall g' a b, flt a b = true ->
     fail_soft a b (fst (fst (rmm g'))) (fst (fst (rab g' a b)))) ->
  forall moves a0 a b m s mvm mvs cm cs,
    flt a b = true ->
    (flt a0 m = false -> flt a0 s = false /\ a = a0) ->
    (flt a0 m = true -> s = m /\ a = m) ->
    fail_soft a0 b
      (fst (fst (minimax_max_value rmm g moves m mvm cm)))
      (fst (fst (alphabeta_max_value rab g moves a b s mvs cs))).
Proof.
  intros Hrec.
  induction moves as [| x rest IH];
    intros a0 a b m s mvm mvs cm cs Hab Hlow Hhigh; cbn.
  - unfold fail_soft. repeat split; intros.
    + destruct (Hlow ltac:(assumption)) as [? ?]. assumption.
    + destruct (Hhigh ltac:(assumption)) as [? ?]. assumption.
    + destruct (flt a0 m) eqn:E.
      * destruct (Hhigh eq_refl) as [-> ->]. assumption.
      * destruct (Hlow eq_refl) as [? ->]. order.
  - specialize (Hrec (forecast_move g x) a b Hab).
    destruct (rab (forecast_move g x) a b) as [[r mvr] k].
    destruct (rmm (forecast_move g x)) as [[v mvv] k'].
    cbn [fst snd] in *.
    pose proof (minimax_max_value_ge rmm g rest) as Hge.
    destruct Hrec as (R1 & R2 & R3).
    destruct (flt a0 m) eqn:Ea0m;
      [destruct (Hhigh eq_refl) as [Hs Ha]
      | destruct (Hlow eq_refl) as [Hs Ha]]; clear Hlow Hhigh;
    match type of R1 with
    | flt ?p ?q = false -> _ => destruct (flt p q) eqn:Eav
    end;
    destruct (flt v b) eqn:Evb;
    fail_soft_premises;
    unfold fgt;
    destruct (flt m v) eqn:Emv; destruct (flt s r) eqn:Esr;
    cbn [fst snd];
    try solve [exfalso; order_close];
    rewrite fle_flt; unfold fmax, fgt;
    match goal with
    | |- context [if flt ?p ?q then _ else _] =>
        destruct (flt p q) eqn:Emax
    end;
    try solve [exfalso; order_close];
    match goal with
    | |- context [negb (flt ?p ?q)] => destruct (flt p q) eqn:Ecut
    end;
    cbn [negb fst snd]; subst;
    try solve [exfalso; order_close].
    all: try solve [
      match goal with
      | |- fail_soft _ _ (fst (fst (minimax_max_value _ _ _ ?m' ?mv' ?c'))) _ =>
          specialize (Hge m' mv' c');
          generalize dependent
            (fst (fst (minimax_max_value rmm g rest m' mv' c')));
          intros V HV; unfold fail_soft; repeat split; intros; order
      end ].
    all: try solve [
      apply IH; [order | intros; split; order | intros; split; order] ].
Qed.

Lemma minimax_min_value_le (rmm : game -> @visit F) (g : game)
    (moves : list move) :
  forall m mv c,
    flt m (fst (fst (minimax_min_value rmm g moves m mv c))) = false.
Proof.
  induction moves as [| x rest IH]; intros m mv c; cbn.
  - apply flt_irrefl.
  - destruct (rmm (forecast_move g x)) as [[v mvv] k]. cbn [fst snd].
    destruct (flt v m) eqn:E.
    + specialize (IH v x (c + k)). order.
    + apply IH.
Qed.

Lemma alphabeta_min_fail_soft (rab : game -> F -> F -> @visit F)
    (rmm : game -> @visit F) (g : game) :
  (forall g' a b, flt a b = true ->
     fail_soft a b (fst (fst (rmm g'))) (fst (fst (rab g' a b)))) ->
  forall moves b0 a b m s mvm mvs cm cs,
    flt a b = true ->
    (flt m b0 = false -> flt s b0 = false /\ b = b0) ->
    (flt m b0 = true -> s = m /\ b = m) ->
    fail_soft a b0
      (fst (fst (minimax_min_value rmm g moves m mvm cm)))
      (fst (fst (alphabeta_min_value rab g moves a b s mvs cs))).
Proof.
  intros Hrec.
  induction moves as [| x rest IH];
    intros b0 a b m s mvm mvs cm cs Hab Hhigh Hlow; cbn.
  - unfold fail_soft. repeat split; intros.
    + destruct (flt m b0) eqn:E.
      * destruct (Hlow eq_refl) as [-> ->]. assumption.
      * destruct (Hhigh eq_refl) as [? ->]. order.
    + destruct (Hlow ltac:(assumption)) as [? ?]. assumption.
    + destruct (Hhigh ltac:(assumption)) as [? ?]. assumption.
  - specialize (Hrec (forecast_move g x) a b Hab).
    destruct (rab (forecast_move g x) a b) as [[r mvr] k].
    destruct (rmm (forecast_move g x)) as [[v mvv] k'].
    cbn [fst snd] in *.
    pose proof (minimax_min_value_le rmm g rest) as Hge.
    destruct Hrec as (R1 & R2 & R3).
    destruct (flt m b0) eqn:Emb0;
      [destruct (Hlow eq_refl) as [Hs Hb]
      | destruct (Hhigh eq_refl) as [Hs Hb]]; clear Hlow Hhigh;
    destruct (flt a v) eqn:Eav;
    match type of R3 with
    | flt ?p ?q = false -> _ => destruct (flt p q) eqn:Evb
    end;
    fail_soft_premises;
    destruct (flt v m) eqn:Emv; destruct (flt r s) eqn:Esr;
    cbn [fst snd];
    try solve [exfalso; order_close];
    rewrite fle_flt; unfold fmin;
    match goal with
    | |- context [if flt ?p ?q then _ else _] =>
        destruct (flt p q) eqn:Emin
    end;
    try solve [exfalso; order_close];
    match goal with
    | |- context [negb (flt ?p ?q)] => destruct (flt p q) eqn:Ecut
    end;
    cbn [negb fst snd]; subst;
    try solve [exfalso; order_close].
    all: try solve [
      match goal with
      | |- fail_soft _ _ (fst (fst (minimax_min_value _ _ _ ?m' ?mv' ?c'))) _ =>
          specialize (Hge m' mv' c');
          generalize dependent
            (fst (fst (minimax_min_value rmm g rest m' mv' c')));
          intros V HV; unfold fail_soft; repeat split; intros; order
      end ].
    all: try solve [
      apply IH; [order | intros; split; order | intros; split; order] ].
Qed.

Lemma fail_soft_refl (a b v : F) : fail_soft a b v v.
Proof. unfold fail_soft. auto. Qed.

(** Inside the window the pruned search finds the full value; outside it
    stays on the same side of the window as the full value. *)
Lemma alphabeta_value_fail_soft (d : nat) :
  forall g a b mx,
    flt a b = true ->
    fail_soft a b (fst (fst (minimax_value self d g mx)))
      (fst (fst (alphabeta_value self d g a b mx))).
Proof.
  induction d as [| d IH]; intros g a b mx Hab; cbn.
  - destruct (get_legal_moves g None); apply fail_soft_refl.
  - destruct (get_legal_moves g None) as [| first rest];
      [apply fail_soft_refl |].
    destruct mx.
    + apply alphabeta_max_fail_soft.
      * intros g' a' b' Hab'. apply IH, Hab'.
      * exact Hab.
      * intros _. split; [apply ninf_least | reflexivity].
      * intros E. rewrite ninf_least in E. discriminate.
    + apply alphabeta_min_fail_soft.
      * intros g' a' b' Hab'. apply IH, Hab'.
      * exact Hab.
      * intros _. split; [apply pinf_greatest | reflexivity].
      * intros E. rewrite pinf_greatest in E. discriminate.
Qed.

(** *** At the root *)

Lemma minimax_max_value_top (rmm : game -> @visit F) (g : game)
    (moves : list move) :
  forall mv c, fst (minimax_max_value rmm g moves pinf mv c) = (pinf, mv).
Proof.
  induction moves as [| x rest IH]; intros mv c; cbn; [reflexivity |].
  destruct (rmm (forecast_move g x)) as [[v mvv] k]. cbn [fst snd].
  unfold fgt. rewrite pinf_greatest. apply IH.
Qed.

Lemma minimax_min_value_bottom (rmm : game -> @visit F) (g : game)
    (moves : list move) :
  forall mv c, fst (minimax_min_value rmm g moves ninf mv c) = (ninf, mv).
Proof.
  induction moves as [| x rest IH]; intros mv c; cbn; [reflexivity |].
  destruct (rmm (forecast_move g x)) as [[v mvv] k]. cbn [fst snd].
  rewrite ninf_least. apply IH.
Qed.

Lemma alphabeta_max_root (rab : game -> F -> F -> @visit F)
    (rmm : game -> @visit F) (g : game) :
  (forall g' a b, flt a b = true ->
     fail_soft a b (fst (fst (rmm g'))) (fst (fst (rab g' a b)))) ->
  forall moves m mv cm cs,
    flt m pinf = true ->
    fst (alphabeta_max_value rab g moves m pinf m mv cs)
    = fst (minimax_max_value rmm g moves m mv cm).
Proof.
  intros Hrec.
  induction moves as [| x rest IH]; intros m mv cm cs Hm; cbn;
    [reflexivity |].
  specialize (Hrec (forecast_move g x) m pinf Hm).
  destruct (rab (forecast_move g x) m pinf) as [[r mvr] k].
  destruct (rmm (forecast_move g x)) as [[v mvv] k'].
  cbn [fst snd] in *.
  destruct Hrec as (R1 & R2 & R3). unfold fgt.
  destruct (flt m v) eqn:Emv; destruct (flt v pinf) eqn:Evp;
  fail_soft_premises;
  destruct (flt m r) eqn:Emr; cbn [fst snd];
  try solve [exfalso; order_close];
  rewrite fle_flt; unfold fmax, fgt;
  match goal with
  | |- context [if flt ?p ?q then _ else _] => destruct (flt p q) eqn:Emax
  end;
  try solve [exfalso; order_close];
  match goal with
  | |- context [negb (flt ?p ?q)] => destruct (flt p q) eqn:Ecut
  end;
  cbn [negb fst snd]; subst;
  try solve [exfalso; order_close].
  all: try solve [apply IH; order].
  all: try solve [
    replace v with (@pinf F _) by order;
    replace r with (@pinf F _) by order;
    rewrite minimax_max_value_top; reflexivity ].
Qed.

Lemma alphabeta_min_root (rab : game -> F -> F -> @visit F)
    (rmm : game -> @visit F) (g : game) :
  (forall g' a b, flt a b = true ->
     fail_soft a b (fst (fst (rmm g'))) (fst (fst (rab g' a b)))) ->
  forall moves m mv cm cs,
    flt ninf m = true ->
    fst (alphabeta_min_value rab g moves ninf m m mv cs)
    = fst (minimax_min_value rmm g moves m mv cm).
Proof.
  intros Hrec.
  induction moves as [| x rest IH]; intros m mv cm cs Hm; cbn;
    [reflexivity |].
  specialize (Hrec (forecast_move g x) ninf m Hm).
  destruct (rab (forecast_move g x) ninf m) as [[r mvr] k].
  destruct (rmm (forecast_move g x)) as [[v mvv] k'].
  cbn [fst snd] in *.
  destruct Hrec as (R1 & R2 & R3).
  destruct (flt ninf v) eqn:Env; destruct (flt v m) eqn:Evm;
  fail_soft_premises;
  destruct (flt r m) eqn:Erm; cbn [fst snd];
  try solve [exfalso; order_close];
  rewrite fle_flt; unfold fmin;
  match goal with
  | |- context [if flt ?p ?q then _ else _] => destruct (flt p q) eqn:Emin
  end;
  try solve [exfalso; order_close];
  match goal with
  | |- context [negb (flt ?p ?q)] => destruct (flt p q) eqn:Ecut
  end;
  cbn [negb fst snd]; subst;
  try solve [exfalso; order_close].
  all: try solve [apply IH; order].
  all: try solve [
    replace v with (@ninf F _) by order;
    replace r with (@ninf F _) by order;
    rewrite minimax_min_value_bottom; reflexivity ].
Qed.

(** With the whole line as its window the pruned search finds the score
    and the move of the full search. *)
Lemma alphabeta_value_root (d : nat) (g : game) (mx : bool) :
  fst (alphabeta_value self d g ninf pinf mx)
  = fst (minimax_value self d g mx).
Proof.
  destruct d as [| d]; cbn; [destruct (get_legal_moves g None); reflexivity |].
  destruct (get_legal_moves g None) as [| first rest]; [reflexivity |].
  destruct mx.
  - apply alphabeta_max_root; [| apply ninf_pinf].
    intros g' a b Hab. apply alphabeta_value_fail_soft, Hab.
  - apply alphabeta_min_root; [| apply ninf_pinf].
    intros g' a b Hab. apply alphabeta_value_fail_soft, Hab.
Qed.

End Pruning.

(** ** Entering a search method *)

Section EntryFacts.
Context {F game player : Type} `{Float F} `{Board game player}.
Variable self : CustomPlayer F game player.
Variable time_left : nat -> F.

Local Abbreviation thr := (TIMER_THRESHOLD self).
Local Abbreviation tq := time_queries.

(** *** Every call queries the clock *)

(** The run queries the clock at least once. *)
Definition queries_clock {A} (run : M A) : Prop :=
  forall w, S (tq w) <= tq (snd (run w)).

(** The run never gives back a query, and raises only after one. *)
Definition raises_after_query {A} (run : M A) : Prop :=
  forall w,
    tq w <= tq (snd (run w))
    /\ (forall e, fst (run w) = Raised e -> S (tq w) <= tq (snd (run w))).

Lemma minimax_max_loop_queries (rec : game -> M (result F)) (g : game) :
  (forall g', queries_clock (rec g')) ->
  forall moves s m, raises_after_query (minimax_max_loop rec g moves s m).
Proof.
  intros Hrec. induction moves as [| mv rest IH]; intros s m w; cbn.
  - split; [lia | discriminate].
  - unfold bind. pose proof (Hrec (forecast_move g mv) w) as Hq.
    destruct (rec (forecast_move g mv) w) as [[r | e] w1]; cbn [fst snd] in *.
    + destruct (fgt (fst r) s);
        match goal with
        | |- context [minimax_max_loop rec g rest ?s' ?m' w1] =>
            destruct (IH s' m' w1) as [Hle Hraise]
        end; (split; [lia | intros e He; specialize (Hraise e He); lia]).
    + split; [lia | intros; lia].
Qed.

Lemma minimax_min_loop_queries (rec : game -> M (result F)) (g : game) :
  (forall g', queries_clock (rec g')) ->
  forall moves s m, raises_after_query (minimax_min_loop rec g moves s m).
Proof.
  intros Hrec. induction moves as [| mv rest IH]; intros s m w; cbn.
  - split; [lia | discriminate].
  - unfold bind. pose proof (Hrec (forecast_move g mv) w) as Hq.
    destruct (rec (forecast_move g mv) w) as [[r | e] w1]; cbn [fst snd] in *.
    + destruct (flt (fst r) s);
        match goal with
        | |- context [minimax_min_loop rec g rest ?s' ?m' w1] =>
            destruct (IH s' m' w1) as [Hle Hraise]
        end; (split; [lia | intros e He; specialize (Hraise e He); lia]).
    + split; [lia | intros; lia].
Qed.

Lemma alphabeta_max_loop_queries (rec : game -> F -> F -> M (result F))
    (g : game) :
  (forall g' a b, queries_clock (rec g' a b)) ->
  forall moves a b s m,
    raises_after_query (alphabeta_max_loop rec g moves a b s m).
Proof.
  intros Hrec. induction moves as [| mv rest IH]; intros a b s m w; cbn.
  - split; [lia | discriminate].
  - unfold bind. pose proof (Hrec (forecast_move g mv) a b w) as Hq.
    destruct (rec (forecast_move g mv) a b w) as [[r | e] w1];
      cbn [fst snd] in *.
    + destruct (fgt (fst r) s); cbn;
        (destruct (fle b _); cbn;
         [split; [lia | discriminate]
         | match goal with
           | |- context [alphabeta_max_loop rec g rest ?a' b ?s' ?m' w1] =>
               destruct (IH a' b s' m' w1) as [Hle Hraise]
           end; (split; [lia | intros e He; specialize (Hraise e He); lia])]).
    + split; [lia | intros; lia].
Qed.

Lemma alphabeta_min_loop_queries (rec : game -> F -> F -> M (result F))
    (g : game) :
  (forall g' a b, queries_clock (rec g' a b)) ->
  forall moves a b s m,
    raises_after_query (alphabeta_min_loop rec g moves a b s m).
Proof.
  intros Hrec. induction moves as [| mv rest IH]; intros a b s m w; cbn.
  - split; [lia | discriminate].
  - unfold bind. pose proof (Hrec (forecast_move g mv) a b w) as Hq.
    destruct (rec (forecast_move g mv) a b w) as [[r | e] w1];
      cbn [fst snd] in *.
    + destruct (flt (fst r) s); cbn;
        (destruct (fle _ a); cbn;
         [split; [lia | discriminate]
         | match goal with
           | |- context [alphabeta_min_loop rec g rest a ?b' ?s' ?m' w1] =>
               destruct (IH a b' s' m' w1) as [Hle Hraise]
           end; (split; [lia | intros e He; specialize (Hraise e He); lia])]).
    + split; [lia | intros; lia].
Qed.

Lemma leaf_queries (g : game) : raises_after_query (leaf self g).
Proof.
  intros w. rewrite leaf_run. unfold count_score. cbn.
  split; [lia | discriminate].
Qed.

Lemma minimax_plies_queries (d : nat) :
  forall g mx, queries_clock (minimax_plies self time_left d g mx).
Proof.
  induction d as [| d IH]; intros g mx w;
    rewrite minimax_plies_eq, entry_run;
    destruct (flt (time_left (tq w)) thr); cbn [snd]; try (cbn; lia).
  assert (Hq : raises_after_query (minimax_expand self time_left (S d) g mx)).
    { unfold minimax_expand.
      destruct (get_legal_moves g None); [apply leaf_queries |].
      destruct mx;
        [apply minimax_max_loop_queries | apply minimax_min_loop_queries];
        intros g'; apply IH. }
    destruct (Hq (count_query (count_search w))) as [Hle _].
    cbn in Hle |- *. lia.
Qed.

Lemma minimax_expand_queries (d : nat) (g : game) (mx : bool) :
  raises_after_query (minimax_expand self time_left d g mx).
Proof.
  unfold minimax_expand. destruct d; [apply leaf_queries |].
  destruct (get_legal_moves g None); [apply leaf_queries |].
  destruct mx;
    [apply minimax_max_loop_queries | apply minimax_min_loop_queries];
    intros g'; apply minimax_plies_queries.
Qed.

Lemma alphabeta_plies_queries (d : nat) :
  forall g a b mx, queries_clock (alphabeta_plies self time_left d g a b mx).
Proof.
  induction d as [| d IH]; intros g a b mx w;
    rewrite alphabeta_plies_eq, entry_run;
    destruct (flt (time_left (tq w)) thr); cbn [snd]; try (cbn; lia).
  assert (Hq : raises_after_query
                   (alphabeta_expand self time_left (S d) g a b mx)).
    { unfold alphabeta_expand.
      destruct (get_legal_moves g None); [apply leaf_queries |].
      destruct mx;
        [apply alphabeta_max_loop_queries | apply alphabeta_min_loop_queries];
        intros g' a' b'; apply IH. }
    destruct (Hq (count_query (count_search w))) as [Hle _].
    cbn in Hle |- *. lia.
Qed.

Lemma alphabeta_expand_queries (d : nat) (g : game) (a b : F) (mx : bool) :
  raises_after_query (alphabeta_expand self time_left d g a b mx).
Proof.
  unfold alphabeta_expand. destruct d; [apply leaf_queries |].
  destruct (get_legal_moves g None); [apply leaf_queries |].
  destruct mx;
    [apply alphabeta_max_loop_queries | apply alphabeta_min_loop_queries];
    intros g' a' b'; apply alphabeta_plies_queries.
Qed.

(** A call that meets the leaf condition with time left returns the leaf
    evaluation. *)
Lemma search_at_leaf (g : game) (depth : Z) (alpha beta : F)
    (maximizing_player : bool) (w : world) :
  flt (time_left (tq w)) thr = false ->
  (depth < 1)%Z \/ get_legal_moves g None = [] ->
  minimax self time_left g depth maximizing_player w
  = (Returned (leaf_value self g),
     count_score (count_query (count_search w)))
  /\ alphabeta self time_left g depth alpha beta maximizing_player w
     = (Returned (leaf_value self g),
        count_score (count_query (count_search w))).
Proof.
  intros Ht Hleaf. unfold minimax, alphabeta.
  rewrite minimax_plies_eq, alphabeta_plies_eq, !entry_run, Ht.
  assert (E : Z.to_nat depth = 0 \/ get_legal_moves g None = []).
  { destruct Hleaf as [Hd | Hm]; [left; lia | right; exact Hm]. }
  unfold minimax_expand, alphabeta_expand.
  destruct E as [-> | ->].
  - rewrite leaf_run. split; reflexivity.
  - destruct (Z.to_nat depth); rewrite leaf_run; split; reflexivity.
Qed.

(** C3, as the code has it. A call of [minimax] or of [alphabeta], a leaf
    or not, first asks for the remaining time. When the answer is strictly
    below the threshold the call raises [Timeout] at once, having done
    nothing else; when the answer is the threshold or more, the call goes on
    with the rest of its body, a call that meets the leaf condition returns
    the leaf evaluation, and a [Timeout] that still comes out was raised
    after a later query, in a deeper call. *)
Theorem search_entry_time_check (g : game) (depth : Z) (alpha beta : F)
    (maximizing_player : bool) (w : world) :
  let t := time_left (tq w) in
  let entered := count_query (count_search w) in
  let mm := minimax self time_left g depth maximizing_player w in
  let ab := alphabeta self time_left g depth alpha beta maximizing_player w in
  (S (tq w) <= tq (snd mm) /\ S (tq w) <= tq (snd ab))
  /\ (flt t thr = true ->
      mm = (Raised Timeout, entered) /\ ab = (Raised Timeout, entered))
  /\ (flt t thr = false ->
      mm = minimax_expand self time_left (Z.to_nat depth) g
             maximizing_player entered
      /\ ab = alphabeta_expand self time_left (Z.to_nat depth) g alpha beta
                maximizing_player entered
      /\ (fst mm = Raised Timeout -> S (S (tq w)) <= tq (snd mm))
      /\ (fst ab = Raised Timeout -> S (S (tq w)) <= tq (snd ab))
      /\ ((depth < 1)%Z \/ get_legal_moves g None = [] ->
          mm = (Returned (leaf_value self g), count_score entered)
          /\ ab = (Returned (leaf_value self g), count_score entered))).
Proof.
  intros t entered mm ab. subst t entered mm ab.
  unfold minimax, alphabeta. split; [| split].
  - split; [apply minimax_plies_queries | apply alphabeta_plies_queries].
  - intros Ht. rewrite minimax_plies_eq, alphabeta_plies_eq, !entry_run, Ht.
    split; reflexivity.
  - intros Ht. rewrite minimax_plies_eq, alphabeta_plies_eq, !entry_run, Ht.
    split; [reflexivity | split; [reflexivity |]].
    split; [| split].
    + intros Hr.
      destruct (minimax_expand_queries (Z.to_nat depth) g maximizing_player
                  (count_query (count_search w))) as [_ Hq].
      specialize (Hq Timeout Hr). cbn in Hq. exact Hq.
    + intros Hr.
      destruct (alphabeta_expand_queries (Z.to_nat depth) g alpha beta
                  maximizing_player (count_query (count_search w)))
        as [_ Hq].
      specialize (Hq Timeout Hr). cbn in Hq. exact Hq.
    + intros Hleaf.
      pose proof (@search_at_leaf g depth alpha beta maximizing_player w Ht
                    Hleaf) as Hl.
      unfold minimax, alphabeta in Hl.
      rewrite minimax_plies_eq, alphabeta_plies_eq, !entry_run, Ht in Hl.
      exact Hl.
Qed.


End EntryFacts.

(** C3 at a concrete call: a reading below the threshold. *)
Lemma search_entry_time_check_witness :
  minimax (tree_agent 3 true "minimax") (expiring 0) two_plies 2 true fresh
  = (Raised Timeout, World 1 0 1).
Proof.
  destruct (search_entry_time_check (tree_agent 3 true "minimax")
              (expiring 0) two_plies 2 NInf PInf true fresh)
    as (_ & Hbelow & _).
  exact (proj1 (Hbelow eq_refl)).
Defined.

(** C3 as stated fails when the remaining time equals the threshold: the
    time does not exceed the threshold, and both searches return. *)
Lemma search_entry_at_threshold :
  fgt (at_threshold 0) (TIMER_THRESHOLD (tree_agent 3 true "minimax")) = false
  /\ minimax (tree_agent 3 true "minimax") at_threshold two_plies 2 true fresh
     = (Returned (Fin 2%Z, (2, 3)%Z), World 7 4 7)
  /\ alphabeta (tree_agent 3 true "minimax") at_threshold two_plies 2
       NInf PInf true fresh
     = (Returned (Fin 2%Z, (2, 3)%Z), World 6 3 6).
Proof. repeat split; reflexivity. Qed.

Section ResultFacts.
Context {F game player : Type} `{Float F} `{Board game player}.
Variable self : CustomPlayer F game player.
Variable time_left : nat -> F.

Local Abbreviation thr := (TIMER_THRESHOLD self).
Local Abbreviation tq := time_queries.

(** *** The move a search returns *)

Lemma minimax_max_loop_move (rec : game -> M (result F)) (g : game) :
  forall moves s m w r w',
    minimax_max_loop rec g moves s m w = (Returned r, w') ->
    snd r = m \/ In (snd r) moves.
Proof.
  induction moves as [| mv rest IH]; intros s m w r w' Hrun; cbn in Hrun.
  - inversion Hrun; subst. left. reflexivity.
  - unfold bind in Hrun.
    destruct (rec (forecast_move g mv) w) as [[r1 | e] w1]; [| discriminate].
    destruct (fgt (fst r1) s); apply IH in Hrun; cbn; intuition congruence.
Qed.

Lemma minimax_min_loop_move (rec : game -> M (result F)) (g : game) :
  forall moves s m w r w',
    minimax_min_loop rec g moves s m w = (Returned r, w') ->
    snd r = m \/ In (snd r) moves.
Proof.
  induction moves as [| mv rest IH]; intros s m w r w' Hrun; cbn in Hrun.
  - inversion Hrun; subst. left. reflexivity.
  - unfold bind in Hrun.
    destruct (rec (forecast_move g mv) w) as [[r1 | e] w1]; [| discriminate].
    destruct (flt (fst r1) s); apply IH in Hrun; cbn; intuition congruence.
Qed.

Lemma alphabeta_max_loop_move (rec : game -> F -> F -> M (result F))
    (g : game) :
  forall moves a b s m w r w',
    alphabeta_max_loop rec g moves a b s m w = (Returned r, w') ->
    snd r = m \/ In (snd r) moves.
Proof.
  induction moves as [| mv rest IH]; intros a b s m w r w' Hrun;
    cbn in Hrun.
  - inversion Hrun; subst. left. reflexivity.
  - unfold bind in Hrun.
    destruct (rec (forecast_move g mv) a b w) as [[r1 | e] w1];
      [| discriminate].
    destruct (fgt (fst r1) s); cbn in Hrun;
      (destruct (fle b _);
       [inversion Hrun; subst; cbn; intuition congruence
       | apply IH in Hrun; cbn; intuition congruence]).
Qed.

Lemma alphabeta_min_loop_move (rec : game -> F -> F -> M (result F))
    (g : game) :
  forall moves a b s m w r w',
    alphabeta_min_loop rec g moves a b s m w = (Returned r, w') ->
    snd r = m \/ In (snd r) moves.
Proof.
  induction moves as [| mv rest IH]; intros a b s m w r w' Hrun;
    cbn in Hrun.
  - inversion Hrun; subst. left. reflexivity.
  - unfold bind in Hrun.
    destruct (rec (forecast_move g mv) a b w) as [[r1 | e] w1];
      [| discriminate].
    destruct (flt (fst r1) s); cbn in Hrun;
      (destruct (fle _ a);
       [inversion Hrun; subst; cbn; intuition congruence
       | apply IH in Hrun; cbn; intuition congruence]).
Qed.

Lemma minimax_expand_move (d : nat) (g : game) (mx : bool) (w : world)
    (r : result F) (w' : world) :
  minimax_expand self time_left d g mx w = (Returned r, w') ->
  (d <> 0 -> get_legal_moves g None <> [] ->
   In (snd r) (get_legal_moves g None))
  /\ (d = 0 -> snd r = get_player_location g (ident self)).
Proof.
  unfold minimax_expand. intros Hrun. destruct d as [| d].
  - rewrite leaf_run in Hrun. inversion Hrun; subst.
    split; [congruence | reflexivity].
  - split; [intros _ Hne | discriminate].
    destruct (get_legal_moves g None) as [| first rest]; [congruence |].
    destruct mx;
      [apply minimax_max_loop_move in Hrun
      | apply minimax_min_loop_move in Hrun];
      (destruct Hrun as [-> | Hin]; [left; reflexivity | exact Hin]).
Qed.

Lemma alphabeta_expand_move (d : nat) (g : game) (a b : F) (mx : bool)
    (w : world) (r : result F) (w' : world) :
  alphabeta_expand self time_left d g a b mx w = (Returned r, w') ->
  (d <> 0 -> get_legal_moves g None <> [] ->
   In (snd r) (get_legal_moves g None))
  /\ (d = 0 -> snd r = get_player_location g (ident self)).
Proof.
  unfold alphabeta_expand. intros Hrun. destruct d as [| d].
  - rewrite leaf_run in Hrun. inversion Hrun; subst.
    split; [congruence | reflexivity].
  - split; [intros _ Hne | discriminate].
    destruct (get_legal_moves g None) as [| first rest]; [congruence |].
    destruct mx;
      [apply alphabeta_max_loop_move in Hrun
      | apply alphabeta_min_loop_move in Hrun];
      (destruct Hrun as [-> | Hin]; [left; reflexivity | exact Hin]).
Qed.

(** A call that returns got past its time check. *)
Lemma entry_returned {A} (k : M A) (w : world) (r : A) (w' : world) :
  (enter_search ;; check_time self time_left ;; k) w = (Returned r, w') ->
  flt (time_left (tq w)) thr = false
  /\ k (count_query (count_search w)) = (Returned r, w').
Proof.
  rewrite entry_run. destruct (flt (time_left (tq w)) thr);
    [discriminate | auto].
Qed.

(** C5, as the code has it. When a call of [minimax] or of [alphabeta] on
    a state with a legal move to make returns [(score, move)]: with a depth
    of at least 1, [move] is one of the legal moves of the state; with a
    depth below 1, [move] is the location of the agent. *)
Theorem search_returned_move (g : game) (depth : Z) (alpha beta : F)
    (maximizing_player : bool) (w : world) (s : F) (mv : move)
    (w' : world) :
  get_legal_moves g None <> [] ->
  minimax self time_left g depth maximizing_player w = (Returned (s, mv), w')
  \/ alphabeta self time_left g depth alpha beta maximizing_player w
     = (Returned (s, mv), w') ->
  ((1 <= depth)%Z -> In mv (get_legal_moves g None))
  /\ ((depth < 1)%Z -> mv = get_player_location g (ident self)).
Proof.
  unfold minimax, alphabeta.
  intros Hne [Hrun | Hrun];
    [rewrite minimax_plies_eq in Hrun | rewrite alphabeta_plies_eq in Hrun];
    apply entry_returned in Hrun; destruct Hrun as [_ Hrun];
    [apply minimax_expand_move in Hrun | apply alphabeta_expand_move in Hrun];
    destruct Hrun as [Hin Hloc]; cbn [snd] in *;
    (split; [intros Hd; apply Hin; [lia | exact Hne]
            | intros Hd; apply Hloc; lia]).
Qed.
End ResultFacts.

(** C5 at a concrete call. *)
Lemma search_returned_move_witness :
  In (2, 3)%Z (get_legal_moves two_plies None).
Proof.
  refine (proj1 (search_returned_move (tree_agent 3 true "alphabeta") steady
                   two_plies 2 NInf PInf true fresh (s := Fin 2%Z)
                   (mv := (2, 3)%Z) (w' := World 6 3 6) _ _) _).
  - discriminate.
  - right. reflexivity.
  - lia.
Defined.

(** C5 as stated fails at a leaf: with depth 0 the move returned is the
    location of the agent, neither a legal move nor [(-1, -1)]. *)
Lemma search_leaf_move_not_legal :
  get_legal_moves two_plies None = [(2, 3)%Z; (4, 4)%Z]
  /\ minimax (tree_agent 3 true "minimax") steady two_plies 0 true fresh
     = (Returned (Fin 0%Z, (3, 3)%Z), World 1 1 1)
  /\ alphabeta (tree_agent 3 true "minimax") steady two_plies 0 NInf PInf
       true fresh
     = (Returned (Fin 0%Z, (3, 3)%Z), World 1 1 1)
  /\ ~ In (3, 3)%Z (get_legal_moves two_plies None)
  /\ (3, 3)%Z <> (-1, -1)%Z.
Proof.
  repeat split; try reflexivity.
  - cbn. intros [E | [E | []]]; discriminate E.
  - discriminate.
Qed.

(** ** The move minimax keeps *)

Section BestMove.
Context {F game player : Type} `{FloatOrder F} `{Board game player}.
Variable self : CustomPlayer F game player.
Variable time_left : nat -> F.

Local Abbreviation tq := time_queries.

Lemma minimax_max_loop_best (rec : game -> M (result F)) (g : game) :
  forall moves s0 m0 w r w',
    minimax_max_loop rec g moves s0 m0 w = (Returned r, w') ->
    exists pairs,
      eval_moves rec g moves w = (Returned pairs, w')
      /\ map fst pairs = moves
      /\ flt (fst r) s0 = false
      /\ (forall p, In p pairs -> flt (fst r) (snd p) = false)
      /\ (r = (s0, m0)
          \/ exists i, first_greatest pairs r i /\ flt s0 (fst r) = true).
Proof.
  induction moves as [| mv rest IH]; intros s0 m0 w r w' Hrun; cbn in Hrun.
  - inversion Hrun; subst. exists []. cbn.
    repeat split; auto using flt_irrefl. intros p [].
  - unfold bind in Hrun. cbn [eval_moves]. unfold bind.
    destruct (rec (forecast_move g mv) w) as [[[x mx] | e] w1];
      [| discriminate].
    cbn [fst] in *. unfold fgt in Hrun.
    destruct (flt s0 x) eqn:Ex; apply IH in Hrun;
      destruct Hrun as (pairs & -> & Hmap & Hge & Hall & Hidx);
      exists ((mv, x) :: pairs); cbn [map fst snd]; unfold ret;
      (split; [reflexivity |]); (split; [f_equal; exact Hmap |]).
    + split; [order |].
      split; [intros p [<- | Hp]; [exact Hge | apply Hall, Hp] |].
      right. destruct Hidx as [-> | (i & (Hi & _ & Hlt) & Hs)].
      * exists 0. split; [| exact Ex]. cbn [fst snd].
        split; [reflexivity |]. split.
        -- intros p [<- | Hp]; [apply flt_irrefl | apply Hall, Hp].
        -- intros j p Hj. lia.
      * exists (S i). split; [| order]. split; [exact Hi |]. split.
        -- intros p [<- | Hp]; [exact Hge | apply Hall, Hp].
        -- intros [| j] p Hj Hp; cbn in Hp.
           ++ inversion Hp; subst. exact Hs.
           ++ apply (Hlt j); [lia | exact Hp].
    + split; [exact Hge |].
      assert (Hx : flt (fst r) x = false) by order.
      split; [intros p [<- | Hp]; [exact Hx | apply Hall, Hp] |].
      destruct Hidx as [-> | (i & (Hi & _ & Hlt) & Hs)]; [left; reflexivity |].
      right. exists (S i). split; [| exact Hs]. split; [exact Hi |]. split.
      * intros p [<- | Hp]; [exact Hx | apply Hall, Hp].
      * intros [| j] p Hj Hp; cbn in Hp.
        -- inversion Hp; subst. cbn [snd]. order.
        -- apply (Hlt j); [lia | exact Hp].
Qed.

Lemma minimax_min_loop_best (rec : game -> M (result F)) (g : game) :
  forall moves s0 m0 w r w',
    minimax_min_loop rec g moves s0 m0 w = (Returned r, w') ->
    exists pairs,
      eval_moves rec g moves w = (Returned pairs, w')
      /\ map fst pairs = moves
      /\ flt s0 (fst r) = false
      /\ (forall p, In p pairs -> flt (snd p) (fst r) = false)
      /\ (r = (s0, m0)
          \/ exists i, first_smallest pairs r i /\ flt (fst r) s0 = true).
Proof.
  induction moves as [| mv rest IH]; intros s0 m0 w r w' Hrun; cbn in Hrun.
  - inversion Hrun; subst. exists []. cbn.
    repeat split; auto using flt_irrefl. intros p [].
  - unfold bind in Hrun. cbn [eval_moves]. unfold bind.
    destruct (rec (forecast_move g mv) w) as [[[x mx] | e] w1];
      [| discriminate].
    cbn [fst] in *.
    destruct (flt x s0) eqn:Ex; apply IH in Hrun;
      destruct Hrun as (pairs & -> & Hmap & Hge & Hall & Hidx);
      exists ((mv, x) :: pairs); cbn [map fst snd]; unfold ret;
      (split; [reflexivity |]); (split; [f_equal; exact Hmap |]).
    + split; [order |].
      split; [intros p [<- | Hp]; [exact Hge | apply Hall, Hp] |].
      right. destruct Hidx as [-> | (i & (Hi & _ & Hlt) & Hs)].
      * exists 0. split; [| exact Ex]. cbn [fst snd].
        split; [reflexivity |]. split.
        -- intros p [<- | Hp]; [apply flt_irrefl | apply Hall, Hp].
        -- intros j p Hj. lia.
      * exists (S i). split; [| order]. split; [exact Hi |]. split.
        -- intros p [<- | Hp]; [exact Hge | apply Hall, Hp].
        -- intros [| j] p Hj Hp; cbn in Hp.
           ++ inversion Hp; subst. exact Hs.
           ++ apply (Hlt j); [lia | exact Hp].
    + split; [exact Hge |].
      assert (Hx : flt x (fst r) = false) by order.
      split; [intros p [<- | Hp]; [exact Hx | apply Hall, Hp] |].
      destruct Hidx as [-> | (i & (Hi & _ & Hlt) & Hs)]; [left; reflexivity |].
      right. exists (S i). split; [| exact Hs]. split; [exact Hi |]. split.
      * intros p [<- | Hp]; [exact Hx | apply Hall, Hp].
      * intros [| j] p Hj Hp; cbn in Hp.
        -- inversion Hp; subst. cbn [snd]. order.
        -- apply (Hlt j); [lia | exact Hp].
Qed.
(** C6. With a depth of at least 1 and a legal move to make, a call of
    [minimax] that returns [(s, mv)] has evaluated every legal move, in the
    order of enumeration, by a call at [depth - 1] with the flag flipped;
    when maximizing, [s] is the greatest of the scores and [mv] the first
    move that reaches it, all the moves before it scoring strictly less;
    when minimizing, [s] is the smallest and [mv] the first move that
    reaches it. *)
Theorem minimax_selects_first_best (g : game) (depth : Z)
    (maximizing_player : bool) (w : world) (s : F) (mv : move) (w' : world) :
  (1 <= depth)%Z ->
  get_legal_moves g None <> [] ->
  minimax self time_left g depth maximizing_player w
  = (Returned (s, mv), w') ->
  exists pairs i,
    eval_moves
      (fun g' => minimax self time_left g' (depth - 1)
                   (negb maximizing_player))
      g (get_legal_moves g None) (count_query (count_search w))
    = (Returned pairs, w')
    /\ map fst pairs = get_legal_moves g None
    /\ if maximizing_player then first_greatest pairs (s, mv) i
       else first_smallest pairs (s, mv) i.
Proof.
  intros Hd Hne Hrun. unfold minimax in *.
  replace (Z.to_nat depth) with (S (Z.to_nat (depth - 1))) in Hrun by lia.
  rewrite minimax_plies_eq in Hrun.
  apply entry_returned in Hrun. destruct Hrun as [_ Hrun].
  unfold minimax_expand in Hrun.
  destruct (get_legal_moves g None) as [| first rest] eqn:Hm; [congruence |].
  destruct maximizing_player; cbn [negb].
  - apply minimax_max_loop_best in Hrun.
    destruct Hrun as (pairs & Hev & Hmap & _ & Hall & Hidx).
    exists pairs.
    destruct Hidx as [E | (i & Hi & _)]; [| exists i; auto].
    exists 0. inversion E; subst s mv.
    destruct pairs as [| [m0 x0] pairs]; [discriminate |].
    cbn in Hmap. inversion Hmap; subst.
    assert (Hx : x0 = ninf).
    { specialize (Hall (first, x0) (or_introl eq_refl)). cbn in Hall.
      pose proof (ninf_least x0). order. }
    subst x0. repeat split; auto. intros j p Hj. lia.
  - apply minimax_min_loop_best in Hrun.
    destruct Hrun as (pairs & Hev & Hmap & _ & Hall & Hidx).
    exists pairs.
    destruct Hidx as [E | (i & Hi & _)]; [| exists i; auto].
    exists 0. inversion E; subst s mv.
    destruct pairs as [| [m0 x0] pairs]; [discriminate |].
    cbn in Hmap. inversion Hmap; subst.
    assert (Hx : x0 = pinf).
    { specialize (Hall (first, x0) (or_introl eq_refl)). cbn in Hall.
      pose proof (pinf_greatest x0). order. }
    subst x0. repeat split; auto. intros j p Hj. lia.
Qed.
End BestMove.

(** ** The two number types are total orders *)

Lemma FloatOrder_extZ : FloatOrder (ext Z).
Proof.
  constructor.
  - reflexivity.
  - intros [| x |]; cbn; [reflexivity | apply Z.ltb_irrefl | reflexivity].
  - intros [| x |] [| y |] [| z |]; cbn; try congruence.
    rewrite !Z.ltb_lt. lia.
  - intros [| x |] [| y |]; cbn; try congruence.
    rewrite !Z.ltb_ge. intros. f_equal. lia.
  - intros [| x |]; reflexivity.
  - intros [| x |]; reflexivity.
  - reflexivity.
Qed.
#[export] Existing Instance FloatOrder_extZ.

Lemma Rltb_true (x y : R) : Rltb x y = true <-> (x < y)%R.
Proof. unfold Rltb. destruct (Rlt_dec x y); split; auto; discriminate. Qed.

Lemma Rltb_false (x y : R) : Rltb x y = false <-> (y <= x)%R.
Proof.
  unfold Rltb. destruct (Rlt_dec x y); split; auto; try discriminate; lra.
Qed.

Lemma FloatOrder_extR : FloatOrder (ext R).
Proof.
  constructor.
  - reflexivity.
  - intros [| x |]; cbn; [reflexivity | apply Rltb_false; lra | reflexivity].
  - intros [| x |] [| y |] [| z |]; cbn; try congruence.
    rewrite !Rltb_true. lra.
  - intros [| x |] [| y |]; cbn; try congruence.
    rewrite !Rltb_false. intros. f_equal. lra.
  - intros [| x |]; reflexivity.
  - intros [| x |]; reflexivity.
  - reflexivity.
Qed.
#[export] Existing Instance FloatOrder_extR.

(** The default agent in a lost state: the search stops at once and scores
    the state [float("-inf")]. *)
Example default_agent_lost :
  init true 3 custom_score true "minimax" (Fin 10%R) = Returned default_agent
  /\ minimax default_agent steady_R lost_board 3 true fresh
     = (Returned (NInf, (0, 0)%Z), World 1 1 1).
Proof.
  split; [reflexivity |].
  refine (proj1 (@search_at_leaf (ext R) position bool _ _ default_agent
                   steady_R lost_board 3 NInf PInf true fresh _ _)).
  - cbn. apply Rltb_false. lra.
  - right. reflexivity.
Qed.

(** The iterative driver on the two plies: the first pass chooses
    [(4, 4)], the second one [(2, 3)], the third one is interrupted. *)
Example get_move_two_plies :
  get_move (tree_agent 3 true "alphabeta") (expiring 9) 5 two_plies
    [(2, 3)%Z; (4, 4)%Z] fresh
  = Some ((2, 3)%Z, World 10 6 10).
Proof. reflexivity. Qed.

(** C6 at a concrete call: the two plies, maximizing. *)
Lemma minimax_selects_first_best_witness :
  exists pairs i,
    eval_moves
      (fun g' => minimax (tree_agent 3 true "minimax") steady g' (2 - 1)
                   (negb true))
      two_plies (get_legal_moves two_plies None)
      (count_query (count_search fresh))
    = (Returned pairs, World 7 4 7)
    /\ map fst pairs = get_legal_moves two_plies None
    /\ first_greatest pairs (Fin 2%Z, (2, 3)%Z) i.
Proof.
  apply (@minimax_selects_first_best (ext Z) tree unit _ FloatOrder_extZ _
           (tree_agent 3 true "minimax") steady two_plies 2 true fresh
           (Fin 2%Z) (2, 3)%Z (World 7 4 7)).
  - lia.
  - discriminate.
  - reflexivity.
Defined.

Section RootAgreement.
Context {F game player : Type} `{FloatOrder F} `{Board game player}.
Variable self : CustomPlayer F game player.
Variable time_left : nat -> F.

(** C1. Whenever [minimax] returns a result at the root, [alphabeta] called
    on the same state at the same depth with [alpha = float("-inf")] and
    [beta = float("inf")] returns too, with the same score and the same
    move, and without more queries of the clock; and whatever the clock, a
    result [alphabeta] returns at the root is that of [minimax]. The cuts at
    [beta <= alpha] change nothing at the root. This holds at every depth
    (the depths [d >= 1] among them), for every score function and for a
    root of either kind. *)
Theorem alphabeta_root_agrees_with_minimax (g : game) (depth : Z)
    (maximizing_player : bool) (w : world) (r : result F) (w' : world) :
  minimax self time_left g depth maximizing_player w = (Returned r, w') ->
  (exists w'',
     alphabeta self time_left g depth ninf pinf maximizing_player w
     = (Returned r, w'')
     /\ time_queries w'' <= time_queries w')
  /\ (forall (clock : nat -> F) (v : world) (r' : result F) (v' : world),
        alphabeta self clock g depth ninf pinf maximizing_player v
        = (Returned r', v') ->
        r' = r).
Proof.
  unfold minimax, alphabeta. intros Hrun.
  apply minimax_plies_returns in Hrun. destruct Hrun as (Hample & -> & Hq).
  split.
  - pose proof (alphabeta_value_calls_le self (Z.to_nat depth) g ninf pinf
                  maximizing_player) as Hle.
    destruct (@alphabeta_plies_value _ _ _ _ _ self time_left
                (Z.to_nat depth) g ninf pinf maximizing_player w)
      as (w'' & Hab & Hq').
    { eapply ample_sub; [exact Hample | lia | lia]. }
    exists w''. rewrite Hab, alphabeta_value_root.
    split; [reflexivity | lia].
  - intros clock v r' v' Hab.
    apply alphabeta_plies_returns in Hab. destruct Hab as (_ & -> & _).
    apply alphabeta_value_root.
Qed.
End RootAgreement.

(** C1 at a concrete call: the two plies, where [alphabeta] skips the last
    answer of the opponent. *)
Lemma alphabeta_root_agrees_with_minimax_witness :
  (exists w'',
     alphabeta (tree_agent 3 true "alphabeta") steady two_plies 2 NInf PInf
       true fresh
     = (Returned (Fin 2%Z, (2, 3)%Z), w'')
     /\ time_queries w'' <= time_queries (World 7 4 7))
  /\ (forall (clock : nat -> ext Z) (v : world) (r' : result (ext Z))
        (v' : world),
        alphabeta (tree_agent 3 true "alphabeta") clock two_plies 2 NInf
          PInf true v
        = (Returned r', v') ->
        r' = (Fin 2%Z, (2, 3)%Z)).
Proof.
  apply (@alphabeta_root_agrees_with_minimax (ext Z) tree unit _
           FloatOrder_extZ _ (tree_agent 3 true "alphabeta") steady
           two_plies 2 true fresh (Fin 2%Z, (2, 3)%Z) (World 7 4 7)).
  reflexivity.
Defined.

(** ** The driver *)

Section Driver.
Context {F game player : Type} `{Float F} `{Board game player}.
Variable self : CustomPlayer F game player.
Variable time_left : nat -> F.

Local Abbreviation thr := (TIMER_THRESHOLD self).

(** C7. With no legal move [get_move] returns [(-1, -1)] whatever the
    state, the configuration and the fuel, and leaves the world as it found
    it: no call of [time_left], of the score function or of a search
    method was made. *)
Theorem get_move_no_legal_moves (fuel : nat) (g : game) (w : world) :
  get_move self time_left fuel g [] w = Some (((-1)%Z, (-1)%Z), w).
Proof. reflexivity. Qed.

(** After [n] passes that returned, the loop stands at depth [n + 1] with
    the result of the last of them. *)
Lemma deepen_completed (g : game) (cur : result F) (w : world) :
  forall n fuel r w',
    completed self time_left n g cur w = Some (r, w') ->
    n <= fuel ->
    deepen self time_left fuel g 1 cur w
    = deepen self time_left (fuel - n) g (Z.of_nat n + 1) r w'.
Proof.
  induction n as [| n IH]; intros fuel r w' Hc Hle.
  - cbn in Hc. inversion Hc; subst. rewrite Nat.sub_0_r. reflexivity.
  - cbn [completed] in Hc.
    destruct (completed self time_left n g cur w) as [[r0 w0] |] eqn:Hn;
      [| discriminate].
    destruct (search_once self time_left g (Z.of_nat n + 1) r0 w0)
      as [[r1 | e] w1] eqn:Hs; [| discriminate].
    inversion Hc; subst.
    rewrite (IH fuel r0 w0 eq_refl) by lia.
    replace (fuel - n) with (S (fuel - S n)) by lia.
    cbn [deepen]. rewrite Hs.
    replace (Z.of_nat (S n) + 1)%Z with (Z.of_nat n + 1 + 1)%Z by lia.
    reflexivity.
Qed.

(** C4. [get_move] starts from the score of the state and the first legal
    move. When [n] passes of the search have returned ([n = 0] in
    fixed-depth mode, where there is one pass at [search_depth]) and the
    next one raises [Timeout], the locals [(score, move)] are those of the
    last pass that returned, the first ones when [n = 0], and [get_move]
    returns that move: nothing of the interrupted pass is kept. *)
Theorem get_move_interrupted (fuel : nat) (g : game) (first : move)
    (rest : list move) (w : world) (n : nat) (r : result F)
    (w1 w2 : world) :
  completed self time_left n g (score self g (ident self), first)
    (count_score w) = Some (r, w1) ->
  (if iterative self then n < fuel else n = 0) ->
  search_once self time_left g
    (if iterative self then Z.of_nat n + 1 else search_depth self)%Z r w1
  = (Raised Timeout, w2) ->
  get_move_locals self time_left fuel g (first :: rest) w
  = Some (Some (fst r), snd r, w2)
  /\ get_move self time_left fuel g (first :: rest) w = Some (snd r, w2)
  /\ (n = 0 -> r = (score self g (ident self), first)).
Proof.
  intros Hc Hn Hs.
  assert (Hl : get_move_locals self time_left fuel g (first :: rest) w
               = Some (Some (fst r), snd r, w2)).
  { unfold get_move_locals. destruct (iterative self).
    - rewrite (@deepen_completed g _ _ n fuel r w1 Hc) by lia.
      replace (fuel - n) with (S (fuel - S n)) by lia.
      cbn [deepen]. rewrite Hs. destruct r; reflexivity.
    - subst n. cbn in Hc. inversion Hc; subst. rewrite Hs. reflexivity. }
  split; [exact Hl |]. split.
  - unfold get_move. rewrite Hl. reflexivity.
  - intros ->. cbn in Hc. inversion Hc. reflexivity.
Qed.

(** An unknown method name makes [search_once] do nothing. *)
Lemma search_once_unknown (g : game) (depth : Z) (cur : result F)
    (w : world) :
  method self <> "minimax"%string -> method self <> "alphabeta"%string ->
  search_once self time_left g depth cur w = (Returned cur, w).
Proof.
  intros H1 H2. unfold search_once.
  apply String.eqb_neq in H1, H2. rewrite H1, H2. reflexivity.
Qed.

(** With an unknown method name the deepening loop never ends. *)
Lemma deepen_unknown (g : game) :
  method self <> "minimax"%string -> method self <> "alphabeta"%string ->
  forall fuel d cur w, deepen self time_left fuel g d cur w = None.
Proof.
  intros H1 H2. induction fuel as [| fuel IH]; intros d cur w; cbn;
    [reflexivity |].
  rewrite search_once_unknown by assumption. apply IH.
Qed.

(** C10. In fixed-depth mode with [search_depth < 1], a recognised method,
    a legal move to make and a first reading of the clock that reaches the
    threshold, [get_move] returns the location of the agent, the move of
    the leaf evaluation, after one query of the clock and one call of the
    search; on a board where that location is not among the legal moves
    given and is not [(-1, -1)], neither is the move returned. *)
Theorem get_move_depth_below_one (fuel : nat) (g : game)
    (legal_moves : list move) (w : world) :
  iterative self = false ->
  (search_depth self < 1)%Z ->
  legal_moves <> [] ->
  method self = "minimax"%string \/ method self = "alphabeta"%string ->
  flt (time_left (time_queries w)) thr = false ->
  ~ In (get_player_location g (ident self)) legal_moves ->
  get_player_location g (ident self) <> ((-1)%Z, (-1)%Z) ->
  exists mv,
    get_move self time_left fuel g legal_moves w
    = Some (mv, count_score (count_query (count_search (count_score w))))
    /\ mv = get_player_location g (ident self)
    /\ ~ In mv legal_moves
    /\ mv <> ((-1)%Z, (-1)%Z).
Proof.
  intros Hit Hd Hne Hm Ht Hout Hsent.
  exists (get_player_location g (ident self)).
  split; [| auto].
  destruct legal_moves as [| first rest]; [congruence |].
  unfold get_move, get_move_locals. rewrite Hit.
  assert (Hs : forall cur,
             search_once self time_left g (search_depth self) cur
               (count_score w)
             = (Returned (leaf_value self g),
                count_score (count_query (count_search (count_score w))))).
  { intros cur.
    destruct (@search_at_leaf _ _ _ _ _ self time_left g (search_depth self)
                ninf pinf true (count_score w) Ht (or_introl Hd))
      as [Hmm Hab].
    unfold search_once. destruct Hm as [-> | ->]; cbn; assumption. }
  rewrite Hs. reflexivity.
Qed.
End Driver.

Section Construction.
Context {F game player : Type} `{Float F} `{Board game player}.

(** C9, as the code has it. [__init__] checks nothing: whatever the method
    name, it returns the agent with that name stored. A name that is
    neither ["minimax"] nor ["alphabeta"] shows only in [get_move], where
    no search is run for it: in fixed-depth mode [get_move] scores the
    state once and returns the first legal move, the clock not queried. *)
Theorem init_accepts_any_method (self : player) (depth : Z)
    (score_fn : game -> player -> F) (iter : bool) (meth : string)
    (timeout : F) (time_left : nat -> F) (fuel : nat) (g : game)
    (first : move) (rest : list move) (w : world) :
  meth <> "minimax"%string -> meth <> "alphabeta"%string ->
  exists p,
    init self depth score_fn iter meth timeout = Returned p
    /\ method p = meth
    /\ (iter = false ->
        get_move p time_left fuel g (first :: rest) w
        = Some (first, count_score w)).
Proof.
  intros H1 H2. eexists. split; [reflexivity |]. split; [reflexivity |].
  intros ->. unfold get_move, get_move_locals. cbn [iterative].
  rewrite search_once_unknown by assumption. reflexivity.
Qed.
End Construction.

(** C9 at a concrete agent. *)
Lemma init_accepts_any_method_witness :
  exists p,
    init tt 3 (fun t _ => tree_value t) false "negamax" (Fin 10%Z)
    = Returned p
    /\ method p = "negamax"%string
    /\ (false = false ->
        get_move p steady 5 two_plies [(2, 3)%Z; (4, 4)%Z] fresh
        = Some ((2, 3)%Z, count_score fresh)).
Proof.
  apply (@init_accepts_any_method (ext Z) tree unit _ _ tt 3
           (fun t _ => tree_value t) false "negamax" (Fin 10%Z) steady 5
           two_plies (2, 3)%Z [(4, 4)%Z] fresh); discriminate.
Defined.

(** C9 as stated fails: the unknown name ["negamax"] is accepted at
    construction, no exception is raised, and the iterative [get_move] of
    the agent so built never returns. *)
Lemma unknown_method_not_refused :
  init tt 3 (fun t _ => tree_value t) true "negamax" (Fin 10%Z)
  = Returned (tree_agent 3 true "negamax")
  /\ (forall e,
        init tt 3 (fun t (_ : unit) => tree_value t) true "negamax"
          (Fin 10%Z)
        <> Raised e)
  /\ (forall fuel,
        get_move (tree_agent 3 true "negamax") steady fuel two_plies
          [(2, 3)%Z; (4, 4)%Z] fresh
        = None).
Proof.
  split; [reflexivity |]. split; [discriminate |].
  intros fuel. unfold get_move, get_move_locals. cbn [iterative tree_agent].
  rewrite deepen_unknown; [reflexivity | discriminate | discriminate].
Qed.

(** C4 at a concrete call: the first pass returns [(4, 4)], the second is
    interrupted at its first query, and [(4, 4)] is returned, not the
    first legal move [(2, 3)]. *)
Lemma get_move_interrupted_witness :
  get_move_locals (tree_agent 3 true "minimax") (expiring 3) 5 two_plies
    [(2, 3)%Z; (4, 4)%Z] fresh
  = Some (Some (Fin 5%Z), (4, 4)%Z, World 4 3 4)
  /\ get_move (tree_agent 3 true "minimax") (expiring 3) 5 two_plies
       [(2, 3)%Z; (4, 4)%Z] fresh
     = Some ((4, 4)%Z, World 4 3 4)
  /\ (1 = 0 ->
      (Fin 5%Z, (4, 4)%Z)
      = (score (tree_agent 3 true "minimax") two_plies
           (ident (tree_agent 3 true "minimax")), (2, 3)%Z)).
Proof.
  apply (@get_move_interrupted (ext Z) tree unit _ _
           (tree_agent 3 true "minimax") (expiring 3) 5 two_plies (2, 3)%Z
           [(4, 4)%Z] fresh 1 (Fin 5%Z, (4, 4)%Z) (World 3 3 3)
           (World 4 3 4)).
  - reflexivity.
  - cbn. lia.
  - reflexivity.
Defined.

(** C10 at a concrete call. *)
Lemma get_move_depth_below_one_witness :
  exists mv,
    get_move (tree_agent 0 false "alphabeta") steady 0 two_plies
      [(2, 3)%Z; (4, 4)%Z] fresh
    = Some (mv, count_score (count_query (count_search (count_score fresh))))
    /\ mv = get_player_location two_plies
              (ident (tree_agent 0 false "alphabeta"))
    /\ ~ In mv [(2, 3)%Z; (4, 4)%Z]
    /\ mv <> ((-1)%Z, (-1)%Z).
Proof.
  apply (@get_move_depth_below_one (ext Z) tree unit _ _
           (tree_agent 0 false "alphabeta") steady 0 two_plies
           [(2, 3)%Z; (4, 4)%Z] fresh).
  - reflexivity.
  - cbn. lia.
  - discriminate.
  - right. reflexivity.
  - reflexivity.
  - cbn. intros [E | [E | []]]; discriminate E.
  - discriminate.
Defined.

(** C8 at two concrete states. *)
Lemma custom_score_terminal_witness :
  custom_score lost_board true = NInf /\ custom_score won_board true = PInf.
Proof.
  split.
  - apply (proj1 (@custom_score_terminal position bool Board_position
                    lost_board true
                    ltac:(intros [_ E]; discriminate E))).
    reflexivity.
  - apply (proj2 (@custom_score_terminal position bool Board_position
                    won_board true
                    ltac:(intros [E _]; discriminate E))).
    reflexivity.
Defined.

(** C2 at a concrete state of the 7 by 7 board. *)
Lemma custom_score_non_terminal_witness :
  custom_score odd_board true
  = Fin (score_around (geometric_center odd_board) odd_board true).
Proof.
  apply (proj2 (@custom_score_non_terminal position bool Board_position
                  odd_board true
                  eq_refl eq_refl eq_refl)).
  reflexivity.
Defined.

(** ** The centre of the board *)

Lemma sqrt_2_pos : (0 < sqrt 2)%R.
Proof. apply sqrt_lt_R0. lra. Qed.

(** C2 as stated fails on boards that are not square of odd side. On the
    4 by 4 board the cell [(2, 2)] the code measures from is not the centre
    [(1.5, 1.5)]; on the board of width 3 and height 5 the code measures
    from [(1, 2)], the centre being [(2, 1)]. *)
Lemma custom_score_not_from_geometric_center :
  (is_loser even_board true = false /\ is_winner even_board true = false
   /\ custom_score even_board true
      <> Fin (score_around (geometric_center even_board) even_board true))
  /\ (is_loser tall_board true = false /\ is_winner tall_board true = false
      /\ custom_score tall_board true
         <> Fin (score_around (geometric_center tall_board) tall_board
                   true)).
Proof.
  pose proof sqrt_2_pos as Hpos.
  split; (split; [reflexivity |]); (split; [reflexivity |]); intros E.
  - rewrite (@custom_score_mid_cell position bool Board_position even_board
               true eq_refl eq_refl) in E.
    injection E as E.
    unfold score_around, euclidean_distance, mid_cell, geometric_center in E.
    cbn in E.
    replace ((1 - 2) * ((1 - 2) * 1) + (1 - 2) * ((1 - 2) * 1))%R
      with 2%R in E by lra.
    replace ((2 - 2) * ((2 - 2) * 1) + (2 - 2) * ((2 - 2) * 1))%R
      with 0%R in E by lra.
    replace ((2 - (4 - 1) / 2) * ((2 - (4 - 1) / 2) * 1)
             + (2 - (4 - 1) / 2) * ((2 - (4 - 1) / 2) * 1))%R
      with ((1 - (4 - 1) / 2) * ((1 - (4 - 1) / 2) * 1)
            + (1 - (4 - 1) / 2) * ((1 - (4 - 1) / 2) * 1))%R in E by lra.
    rewrite sqrt_0 in E. lra.
  - rewrite (@custom_score_mid_cell position bool Board_position tall_board
               true eq_refl eq_refl) in E.
    injection E as E.
    unfold score_around, euclidean_distance, mid_cell, geometric_center in E.
    cbn in E.
    replace ((1 - 1) * ((1 - 1) * 1) + (2 - 2) * ((2 - 2) * 1))%R
      with 0%R in E by lra.
    replace ((2 - 1) * ((2 - 1) * 1) + (1 - 2) * ((1 - 2) * 1))%R
      with 2%R in E by lra.
    replace ((1 - (5 - 1) / 2) * ((1 - (5 - 1) / 2) * 1)
             + (2 - (3 - 1) / 2) * ((2 - (3 - 1) / 2) * 1))%R
      with 2%R in E by lra.
    replace ((2 - (5 - 1) / 2) * ((2 - (5 - 1) / 2) * 1)
             + (1 - (3 - 1) / 2) * ((1 - (3 - 1) / 2) * 1))%R
      with 0%R in E by lra.
    rewrite sqrt_0 in E. lra.
Qed.

(** * The rest of the file *)

(** ** The two other heuristics, and [diff_distance_from_mid] *)

Section OtherHeuristics.
Context {game player : Type} `{Board game player}.

Lemma mid_level_zero (g : game) (p : player) :
  mid_level g p = 0%Z <-> at_mid_cell g p.
Proof.
  unfold mid_level, at_mid_cell.
  destruct (get_player_location g p) as [r c]. cbn [fst snd].
  split.
  - intros E. f_equal; lia.
  - intros E. inversion E; subst. lia.
Qed.

Lemma mid_level_nonneg (g : game) (p : player) : (0 <= mid_level g p)%Z.
Proof. unfold mid_level. lia. Qed.

Lemma mid_distance2_zero (g : game) (p : player) :
  mid_distance2 g p = 0%Z <-> at_mid_cell g p.
Proof.
  unfold mid_distance2, at_mid_cell.
  destruct (get_player_location g p) as [r c]. cbn [fst snd].
  split.
  - intros E. f_equal; nia.
  - intros E. inversion E; subst. lia.
Qed.

Lemma mid_distance2_nonneg (g : game) (p : player) :
  (0 <= mid_distance2 g p)%Z.
Proof. unfold mid_distance2. nia. Qed.

(** [within_radius], by the level of the player. *)
Lemma within_radius_level (g : game) (p : player) :
  within_radius g p
  = if (mid_level g p >? 0)%Z
    then (mobility_term g p + 1 / IZR (mid_level g p))%R
    else mobility_term g p.
Proof.
  unfold within_radius, mid_level, mobility_term.
  destruct (get_player_location g p) as [r c]. reflexivity.
Qed.

(** [own_distance_from_mid], by the squared distance of the player. *)
Lemma own_distance_from_mid_distance2 (g : game) (p : player) :
  own_distance_from_mid g p
  = if (mid_distance2 g p >? 0)%Z
    then (mobility_term g p + 1 / sqrt (IZR (mid_distance2 g p)))%R
    else mobility_term g p.
Proof.
  unfold own_distance_from_mid, mid_distance2, mobility_term.
  destruct (get_player_location g p) as [r c]. cbn [fst snd].
  assert (E : (IZR (r - width g / 2) ^ 2 + IZR (c - height g / 2) ^ 2)%R
              = IZR ((r - width g / 2) ^ 2 + (c - height g / 2) ^ 2)).
  { rewrite plus_IZR. rewrite !(pow_IZR _ 2). reflexivity. }
  rewrite E.
  destruct (Z.gtb_spec ((r - width g / 2) ^ 2 + (c - height g / 2) ^ 2) 0)
    as [Hpos | Hle].
  - replace (Rltb 0 _) with true; [reflexivity |].
    symmetry. apply Rltb_true. apply IZR_lt. exact Hpos.
  - replace (Rltb 0 _) with false; [reflexivity |].
    symmetry. apply Rltb_false. apply IZR_le. exact Hle.
Qed.

Lemma diff_distance_from_mid_distance2 (g : game) (p : player) :
  diff_distance_from_mid g p
  = (mobility_term g p
     + (sqrt (IZR (mid_distance2 g (get_opponent g p)))
        - sqrt (IZR (mid_distance2 g p))))%R.
Proof.
  unfold diff_distance_from_mid, mid_distance2, mobility_term.
  destruct (get_player_location g p) as [r c].
  destruct (get_player_location g (get_opponent g p)) as [r' c'].
  cbn [fst snd]. rewrite !plus_IZR, !(pow_IZR _ 2). reflexivity.
Qed.

Lemma inverse_level_bounds (l : Z) :
  (0 < l)%Z -> (0 < 1 / IZR l <= 1)%R.
Proof.
  intros Hl. assert (H1 : (1 <= IZR l)%R) by (apply IZR_le; lia).
  assert (H2 : (/ IZR l <= / 1)%R) by (apply Rinv_le_contravar; lra).
  assert (H3 : (0 < / IZR l)%R) by (apply Rinv_0_lt_compat; lra).
  rewrite Rinv_1 in H2. unfold Rdiv. lra.
Qed.

Lemma inverse_sqrt_bounds (d : Z) :
  (0 < d)%Z -> (0 < 1 / sqrt (IZR d) <= 1)%R.
Proof.
  intros Hd. assert (H1 : (1 <= IZR d)%R) by (apply IZR_le; lia).
  assert (H2 : (1 <= sqrt (IZR d))%R).
  { rewrite <- sqrt_1. apply sqrt_le_1_alt. exact H1. }
  assert (H3 : (/ sqrt (IZR d) <= / 1)%R)
    by (apply Rinv_le_contravar; lra).
  assert (H4 : (0 < / sqrt (IZR d))%R) by (apply Rinv_0_lt_compat; lra).
  rewrite Rinv_1 in H3. unfold Rdiv. lra.
Qed.

(** X1. [within_radius] is never below the difference of the numbers of
    moves and never more than 1 above it, and it is that difference exactly
    when the player stands on the cell [(width // 2, height // 2)]. *)
Theorem within_radius_bounds (g : game) (p : player) :
  (mobility_term g p <= within_radius g p <= mobility_term g p + 1)%R
  /\ (within_radius g p = mobility_term g p <-> at_mid_cell g p).
Proof.
  rewrite within_radius_level. rewrite <- mid_level_zero.
  pose proof (mid_level_nonneg g p) as Hn.
  destruct (Z.gtb_spec (mid_level g p) 0) as [Hpos | Hle].
  - destruct (inverse_level_bounds Hpos) as [H1 H2].
    split; [lra |]. split; [intros E; lra | intros E; lia].
  - split; [lra |]. split; [intros _; lia | reflexivity].
Qed.

(** X2. With the same difference of moves, [within_radius] rates a player
    off the mid cell the higher the fewer king steps separate it from the
    cell, and rates a player on the mid cell itself below a player on any
    other cell. *)
Theorem within_radius_order (g1 g2 : game) (p1 p2 : player) :
  mobility_term g1 p1 = mobility_term g2 p2 ->
  ((0 < mid_level g1 p1 < mid_level g2 p2)%Z ->
   (within_radius g2 p2 < within_radius g1 p1)%R)
  /\ (at_mid_cell g1 p1 -> ~ at_mid_cell g2 p2 ->
      (within_radius g1 p1 < within_radius g2 p2)%R).
Proof.
  intros Hm. rewrite !within_radius_level, <- !mid_level_zero, Hm.
  pose proof (mid_level_nonneg g2 p2) as Hn2.
  split.
  - intros [H1 H2].
    destruct (Z.gtb_spec (mid_level g1 p1) 0); [| lia].
    destruct (Z.gtb_spec (mid_level g2 p2) 0); [| lia].
    apply Rplus_lt_compat_l. unfold Rdiv. rewrite !Rmult_1_l.
    apply Rinv_lt_contravar.
    + apply Rmult_lt_0_compat; apply IZR_lt; lia.
    + apply IZR_lt. exact H2.
  - intros E1 E2. rewrite E1. cbn.
    destruct (Z.gtb_spec (mid_level g2 p2) 0) as [Hpos | Hle]; [| lia].
    destruct (inverse_level_bounds Hpos) as [H1 _]. lra.
Qed.

(** X3. [own_distance_from_mid] is never below the difference of the
    numbers of moves and never more than 1 above it, and it is that
    difference exactly when the player stands on the cell
    [(width // 2, height // 2)]. *)
Theorem own_distance_from_mid_bounds (g : game) (p : player) :
  (mobility_term g p <= own_distance_from_mid g p <= mobility_term g p + 1)%R
  /\ (own_distance_from_mid g p = mobility_term g p <-> at_mid_cell g p).
Proof.
  rewrite own_distance_from_mid_distance2. rewrite <- mid_distance2_zero.
  pose proof (mid_distance2_nonneg g p) as Hn.
  destruct (Z.gtb_spec (mid_distance2 g p) 0) as [Hpos | Hle].
  - destruct (inverse_sqrt_bounds Hpos) as [H1 H2].
    split; [lra |]. split; [intros E; lra | intros E; lia].
  - split; [lra |]. split; [intros _; lia | reflexivity].
Qed.

(** X4. With the same difference of moves, [own_distance_from_mid] rates
    a player off the mid cell the higher the nearer it is to the cell, and
    rates a player on the mid cell itself below a player on any other
    cell. *)
Theorem own_distance_from_mid_order (g1 g2 : game) (p1 p2 : player) :
  mobility_term g1 p1 = mobility_term g2 p2 ->
  ((0 < mid_distance2 g1 p1 < mid_distance2 g2 p2)%Z ->
   (own_distance_from_mid g2 p2 < own_distance_from_mid g1 p1)%R)
  /\ (at_mid_cell g1 p1 -> ~ at_mid_cell g2 p2 ->
      (own_distance_from_mid g1 p1 < own_distance_from_mid g2 p2)%R).
Proof.
  intros Hm.
  rewrite !own_distance_from_mid_distance2, <- !mid_distance2_zero, Hm.
  pose proof (mid_distance2_nonneg g2 p2) as Hn2.
  split.
  - intros [H1 H2].
    destruct (Z.gtb_spec (mid_distance2 g1 p1) 0); [| lia].
    destruct (Z.gtb_spec (mid_distance2 g2 p2) 0); [| lia].
    apply Rplus_lt_compat_l. unfold Rdiv. rewrite !Rmult_1_l.
    assert (Hs1 : (0 < sqrt (IZR (mid_distance2 g1 p1)))%R).
    { apply sqrt_lt_R0. apply IZR_lt. lia. }
    assert (Hs : (sqrt (IZR (mid_distance2 g1 p1))
                  < sqrt (IZR (mid_distance2 g2 p2)))%R).
    { apply sqrt_lt_1_alt. split; [apply IZR_le; lia | apply IZR_lt; lia]. }
    apply Rinv_lt_contravar; [| exact Hs].
    apply Rmult_lt_0_compat; lra.
  - intros E1 E2. rewrite E1. cbn.
    destruct (Z.gtb_spec (mid_distance2 g2 p2) 0) as [Hpos | Hle]; [| lia].
    destruct (inverse_sqrt_bounds Hpos) as [H1 _]. lra.
Qed.

(** X5. When the opponent of the opponent is the player,
    [diff_distance_from_mid] is zero-sum: the score of a state for one
    player is the opposite of its score for the other; and so is
    [custom_score] in a state where neither has won or lost. *)
Theorem diff_distance_from_mid_zero_sum (g : game) (p : player) :
  get_opponent g (get_opponent g p) = p ->
  diff_distance_from_mid g (get_opponent g p)
  = (- diff_distance_from_mid g p)%R
  /\ (is_loser g p = false -> is_winner g p = false ->
      is_loser g (get_opponent g p) = false ->
      is_winner g (get_opponent g p) = false ->
      exists x, custom_score g p = Fin x
                /\ custom_score g (get_opponent g p) = Fin (- x)%R).
Proof.
  intros Hopp.
  assert (E : diff_distance_from_mid g (get_opponent g p)
              = (- diff_distance_from_mid g p)%R).
  { rewrite !diff_distance_from_mid_distance2. unfold mobility_term.
    rewrite Hopp, !minus_IZR. lra. }
  split; [exact E |].
  intros H1 H2 H3 H4. exists (diff_distance_from_mid g p).
  unfold custom_score. rewrite H1, H2, H3, H4, E. split; reflexivity.
Qed.

(** X6. The positional part of [diff_distance_from_mid] is not negative
    exactly when the player is at least as near to the cell
    [(width // 2, height // 2)] as the opponent: the score is at least the
    difference of the numbers of moves exactly then. *)
Theorem diff_distance_from_mid_sign (g : game) (p : player) :
  (mobility_term g p <= diff_distance_from_mid g p)%R
  <-> (mid_distance2 g p <= mid_distance2 g (get_opponent g p))%Z.
Proof.
  rewrite diff_distance_from_mid_distance2.
  pose proof (mid_distance2_nonneg g p) as Hn.
  pose proof (mid_distance2_nonneg g (get_opponent g p)) as Hn'.
  split.
  - intros Hle. apply le_IZR. apply sqrt_le_0.
    + apply IZR_le. exact Hn.
    + apply IZR_le. exact Hn'.
    + lra.
  - intros Hle.
    assert (Hs : (sqrt (IZR (mid_distance2 g p))
                  <= sqrt (IZR (mid_distance2 g (get_opponent g p))))%R).
    { apply sqrt_le_1_alt. apply IZR_le. exact Hle. }
    lra.
Qed.

End OtherHeuristics.

(** ** What a search does to the clock and the counters *)

Section Effects.
Context {F game player : Type} `{Float F} `{Board game player}.
Variable self : CustomPlayer F game player.
Variable time_left : nat -> F.

Local Abbreviation thr := (TIMER_THRESHOLD self).
Local Abbreviation tq := time_queries.

Variable P : effect.
Hypothesis HP : search_effect self time_left P.

Lemma minimax_max_loop_effect (rec : game -> M (result F)) (g : game) :
  (forall g', has_effect P (rec g')) ->
  forall moves s m, has_effect P (minimax_max_loop rec g moves s m).
Proof.
  intros Hrec. induction moves as [| mv rest IH]; intros s m w; cbn.
  - apply (effect_ret HP).
  - unfold bind. pose proof (Hrec (forecast_move g mv) w) as Hc.
    destruct (rec (forecast_move g mv) w) as [[r | e] w1];
      cbn [fst snd raised] in *; [| exact Hc].
    destruct (fgt (fst r) s);
      (eapply (effect_seq HP); [exact Hc | apply IH]).
Qed.

Lemma minimax_min_loop_effect (rec : game -> M (result F)) (g : game) :
  (forall g', has_effect P (rec g')) ->
  forall moves s m, has_effect P (minimax_min_loop rec g moves s m).
Proof.
  intros Hrec. induction moves as [| mv rest IH]; intros s m w; cbn.
  - apply (effect_ret HP).
  - unfold bind. pose proof (Hrec (forecast_move g mv) w) as Hc.
    destruct (rec (forecast_move g mv) w) as [[r | e] w1];
      cbn [fst snd raised] in *; [| exact Hc].
    destruct (flt (fst r) s);
      (eapply (effect_seq HP); [exact Hc | apply IH]).
Qed.

Lemma alphabeta_max_loop_effect (rec : game -> F -> F -> M (result F))
    (g : game) :
  (forall g' a b, has_effect P (rec g' a b)) ->
  forall moves a b s m, has_effect P (alphabeta_max_loop rec g moves a b s m).
Proof.
  intros Hrec. induction moves as [| mv rest IH]; intros a b s m w; cbn.
  - apply (effect_ret HP).
  - unfold bind. pose proof (Hrec (forecast_move g mv) a b w) as Hc.
    destruct (rec (forecast_move g mv) a b w) as [[r | e] w1];
      cbn [fst snd raised] in *; [| exact Hc].
    destruct (fgt (fst r) s); cbn;
      (destruct (fle b _); cbn;
       [exact Hc | eapply (effect_seq HP); [exact Hc | apply IH]]).
Qed.

Lemma alphabeta_min_loop_effect (rec : game -> F -> F -> M (result F))
    (g : game) :
  (forall g' a b, has_effect P (rec g' a b)) ->
  forall moves a b s m, has_effect P (alphabeta_min_loop rec g moves a b s m).
Proof.
  intros Hrec. induction moves as [| mv rest IH]; intros a b s m w; cbn.
  - apply (effect_ret HP).
  - unfold bind. pose proof (Hrec (forecast_move g mv) a b w) as Hc.
    destruct (rec (forecast_move g mv) a b w) as [[r | e] w1];
      cbn [fst snd raised] in *; [| exact Hc].
    destruct (flt (fst r) s); cbn;
      (destruct (fle _ a); cbn;
       [exact Hc | eapply (effect_seq HP); [exact Hc | apply IH]]).
Qed.

Lemma minimax_plies_effect (d : nat) :
  forall g mx, has_effect P (minimax_plies self time_left d g mx).
Proof.
  induction d as [| d IH]; intros g mx w;
    rewrite minimax_plies_eq, entry_run;
    destruct (flt (time_left (tq w)) thr) eqn:Ht;
    try (apply (effect_raise HP), Ht).
  - change (minimax_expand self time_left 0 g mx) with (leaf self g).
    rewrite leaf_run. apply (effect_leaf HP), Ht.
  - unfold minimax_expand.
    destruct (get_legal_moves g None) as [| first rest].
    + rewrite leaf_run. apply (effect_leaf HP), Ht.
    + eapply (effect_seq HP); [apply (effect_enter HP), Ht |].
      destruct mx;
        [apply minimax_max_loop_effect | apply minimax_min_loop_effect];
        intros g'; apply IH.
Qed.

Lemma alphabeta_plies_effect (d : nat) :
  forall g a b mx, has_effect P (alphabeta_plies self time_left d g a b mx).
Proof.
  induction d as [| d IH]; intros g a b mx w;
    rewrite alphabeta_plies_eq, entry_run;
    destruct (flt (time_left (tq w)) thr) eqn:Ht;
    try (apply (effect_raise HP), Ht).
  - change (alphabeta_expand self time_left 0 g a b mx) with (leaf self g).
    rewrite leaf_run. apply (effect_leaf HP), Ht.
  - unfold alphabeta_expand.
    destruct (get_legal_moves g None) as [| first rest].
    + rewrite leaf_run. apply (effect_leaf HP), Ht.
    + eapply (effect_seq HP); [apply (effect_enter HP), Ht |].
      destruct mx;
        [apply alphabeta_max_loop_effect | apply alphabeta_min_loop_effect];
        intros g' a' b'; apply IH.
Qed.

Lemma search_once_effect (g : game) (depth : Z) (cur : result F) :
  has_effect P (search_once self time_left g depth cur).
Proof.
  unfold search_once, minimax, alphabeta.
  destruct (String.eqb (method self) "minimax");
    [apply minimax_plies_effect |].
  destruct (String.eqb (method self) "alphabeta");
    [apply alphabeta_plies_effect |].
  intros w. apply (effect_ret HP).
Qed.
End Effects.

Section SearchEffects.
Context {F game player : Type} `{Float F} `{Board game player}.
Variable self : CustomPlayer F game player.
Variable time_left : nat -> F.

Local Abbreviation thr := (TIMER_THRESHOLD self).
Local Abbreviation tq := time_queries.

Lemma paced_search_effect : search_effect self time_left paced.
Proof.
  unfold paced, call_counts. constructor.
  - intros w. exists 0, 0. lia.
  - intros w w1 b w2 (n & e & Hle & H1) (n' & e' & Hle' & H2).
    exists (n + n'), (e + e'). lia.
  - intros w _. exists 1, 0. cbn. lia.
  - intros w _. exists 1, 0. cbn. lia.
  - intros w _. exists 1, 1. cbn. lia.
Qed.

Lemma clocked_search_effect :
  search_effect self time_left (clocked self time_left).
Proof.
  unfold clocked. constructor.
  - intros w. split; [lia |]. intros i Hi. lia.
  - intros w w1 b w2 [Hle Ha] Hb. destruct b.
    + destruct Hb as (Hlt & Hlow & Ha'). split; [lia |]. split; [exact Hlow |].
      replace (pred (tq w2) - tq w)
        with ((tq w1 - tq w) + (pred (tq w2) - tq w1)) by lia.
      apply ample_app; [exact Ha |].
      replace (tq w + (tq w1 - tq w)) with (tq w1) by lia. exact Ha'.
    + destruct Hb as (Hle' & Ha'). split; [lia |].
      replace (tq w2 - tq w)
        with ((tq w1 - tq w) + (tq w2 - tq w1)) by lia.
      apply ample_app; [exact Ha |].
      replace (tq w + (tq w1 - tq w)) with (tq w1) by lia. exact Ha'.
  - intros w Ht. unfold count_query, count_search. cbn [time_queries pred].
    split; [lia |]. split; [exact Ht |]. intros i Hi. lia.
  - intros w Ht. unfold count_query, count_search. cbn [time_queries].
    split; [lia |].
    replace (S (tq w) - tq w) with 1 by lia. apply ample_one, Ht.
  - intros w Ht. unfold count_score, count_query, count_search.
    cbn [time_queries]. split; [lia |].
    replace (S (tq w) - tq w) with 1 by lia. apply ample_one, Ht.
Qed.

(** X7. A run of [minimax] or of [alphabeta], returning or interrupted,
    queries the clock exactly once for each call of the method made in it,
    the first one included, and evaluates the score at most once for each
    call. *)
Theorem search_queries_once_per_call (g : game) (depth : Z) (alpha beta : F)
    (maximizing_player : bool) (w : world) :
  (exists n e, 1 <= n /\ e <= n
     /\ call_counts w
          (snd (minimax self time_left g depth maximizing_player w)) n e)
  /\ (exists n e, 1 <= n /\ e <= n
        /\ call_counts w
             (snd (alphabeta self time_left g depth alpha beta
                     maximizing_player w)) n e).
Proof.
  unfold minimax, alphabeta. split.
  - destruct (minimax_plies_effect paced_search_effect (Z.to_nat depth) g
                maximizing_player w) as (n & e & Hle & Hc).
    pose proof (minimax_plies_queries self time_left (Z.to_nat depth) g
                  maximizing_player w) as Hq.
    exists n, e. unfold call_counts in *. repeat split; lia.
  - destruct (alphabeta_plies_effect paced_search_effect (Z.to_nat depth) g
                alpha beta maximizing_player w) as (n & e & Hle & Hc).
    pose proof (alphabeta_plies_queries self time_left (Z.to_nat depth) g
                  alpha beta maximizing_player w) as Hq.
    exists n, e. unfold call_counts in *. repeat split; lia.
Qed.

(** X8. [minimax] and [alphabeta] raise [Timeout] only on a reading of the
    clock below the threshold, the last they took, every reading before it
    having reached the threshold; and a run that returns has taken no
    reading below the threshold. *)
Theorem timeout_only_on_low_reading (run : M (result F)) (g : game)
    (depth : Z) (alpha beta : F) (maximizing_player : bool) (w : world)
    (o : outcome (result F)) (w' : world) :
  run = minimax self time_left g depth maximizing_player
  \/ run = alphabeta self time_left g depth alpha beta maximizing_player ->
  run w = (o, w') ->
  (forall k,
     tq w <= k < (if raised o then pred (tq w') else tq w') ->
     flt (time_left k) thr = false)
  /\ (raised o = true ->
      tq w < tq w' /\ flt (time_left (pred (tq w'))) thr = true).
Proof.
  intros Hrun Hw.
  assert (Hc : clocked self time_left w (raised o) w').
  { destruct Hrun as [-> | ->]; unfold minimax, alphabeta in Hw.
    - pose proof (minimax_plies_effect clocked_search_effect
                    (Z.to_nat depth) g maximizing_player w) as Hc.
      rewrite Hw in Hc. exact Hc.
    - pose proof (alphabeta_plies_effect clocked_search_effect
                    (Z.to_nat depth) g alpha beta maximizing_player w) as Hc.
      rewrite Hw in Hc. exact Hc. }
  unfold clocked in Hc. destruct (raised o).
  - destruct Hc as (Hlt & Hlow & Ha). split; [| auto].
    intros k Hk. replace k with (tq w + (k - tq w)) by lia. apply Ha. lia.
  - destruct Hc as (Hle & Ha). split; [| discriminate].
    intros k Hk. replace k with (tq w + (k - tq w)) by lia. apply Ha. lia.
Qed.

(** X9. On a clock that never reads below the threshold [minimax] and
    [alphabeta] always return; and what [minimax] and [alphabeta] return
    does not depend on the clock nor on the world they start from. *)
Theorem search_returns_on_steady_clock (g : game) (depth : Z)
    (alpha beta : F) (maximizing_player : bool) (w : world) :
  (forall k, flt (time_left k) thr = false) ->
  exists r r' w1 w2,
    minimax self time_left g depth maximizing_player w = (Returned r, w1)
    /\ alphabeta self time_left g depth alpha beta maximizing_player w
       = (Returned r', w2)
    /\ (forall clock v x v',
          minimax self clock g depth maximizing_player v = (Returned x, v')
          -> x = r)
    /\ (forall clock v x v',
          alphabeta self clock g depth alpha beta maximizing_player v
          = (Returned x, v') -> x = r').
Proof.
  intros Hsteady. unfold minimax, alphabeta.
  destruct (@minimax_plies_value _ _ _ _ _ self time_left (Z.to_nat depth) g
              maximizing_player w) as (w1 & Hm & _);
    [intros i _; apply Hsteady |].
  destruct (@alphabeta_plies_value _ _ _ _ _ self time_left (Z.to_nat depth)
              g alpha beta maximizing_player w) as (w2 & Ha & _);
    [intros i _; apply Hsteady |].
  do 4 eexists. split; [exact Hm |]. split; [exact Ha |]. split.
  - intros clock v x v' Hx. apply minimax_plies_returns in Hx.
    destruct Hx as (_ & -> & _). reflexivity.
  - intros clock v x v' Hx. apply alphabeta_plies_returns in Hx.
    destruct Hx as (_ & -> & _). reflexivity.
Qed.
End SearchEffects.

(** ** Windows and ranges *)

Section Windows.
Context {F game player : Type} `{FloatOrder F} `{Board game player}.
Variable self : CustomPlayer F game player.
Variable time_left : nat -> F.

(** X10. Pruning with any window [alpha < beta], at any node: when the
    score of [minimax] lies strictly inside the window, [alphabeta] returns
    that score; when it is [alpha] or less, [alphabeta] returns a score
    that is [alpha] or less; when it is [beta] or more, a score that is
    [beta] or more. *)
Theorem alphabeta_window (g : game) (depth : Z) (alpha beta : F)
    (maximizing_player : bool) (clock : nat -> F) (w1 w2 : world)
    (v r : F) (mv mr : move) (w1' w2' : world) :
  flt alpha beta = true ->
  minimax self time_left g depth maximizing_player w1
  = (Returned (v, mv), w1') ->
  alphabeta self clock g depth alpha beta maximizing_player w2
  = (Returned (r, mr), w2') ->
  (flt alpha v = false -> flt alpha r = false)
  /\ (flt alpha v = true -> flt v beta = true -> r = v)
  /\ (flt v beta = false -> flt r beta = false).
Proof.
  unfold minimax, alphabeta. intros Hab Hm Ha.
  apply minimax_plies_returns in Hm. destruct Hm as (_ & Hm & _).
  apply alphabeta_plies_returns in Ha. destruct Ha as (_ & Ha & _).
  pose proof (alphabeta_value_fail_soft self (Z.to_nat depth) g alpha beta
                maximizing_player Hab) as Hfs.
  rewrite <- Hm, <- Ha in Hfs. exact Hfs.
Qed.

(** *** Scores stay in the range of the score function *)

Variables lo hi : F.

Lemma minimax_max_value_range (rmm : game -> @visit F) (g : game) :
  (forall g', within lo hi (fst (fst (rmm g')))) ->
  forall moves s m c,
    within lo hi s \/ (s = ninf /\ moves <> []) ->
    within lo hi (fst (fst (minimax_max_value rmm g moves s m c))).
Proof.
  intros Hrec. induction moves as [| x rest IH]; intros s m c Hs; cbn.
  - destruct Hs as [Hs | [_ Hne]]; [exact Hs | congruence].
  - specialize (Hrec (forecast_move g x)).
    destruct (rmm (forecast_move g x)) as [[v mvv] k]. cbn [fst snd] in *.
    destruct Hrec as [Hv1 Hv2]. unfold fgt.
    destruct (flt s v) eqn:E; apply IH; left.
    + split; assumption.
    + destruct Hs as [Hs | [-> _]]; [exact Hs |].
      assert (Ev : v = ninf) by order. subst v. split; assumption.
Qed.

Lemma minimax_min_value_range (rmm : game -> @visit F) (g : game) :
  (forall g', within lo hi (fst (fst (rmm g')))) ->
  forall moves s m c,
    within lo hi s \/ (s = pinf /\ moves <> []) ->
    within lo hi (fst (fst (minimax_min_value rmm g moves s m c))).
Proof.
  intros Hrec. induction moves as [| x rest IH]; intros s m c Hs; cbn.
  - destruct Hs as [Hs | [_ Hne]]; [exact Hs | congruence].
  - specialize (Hrec (forecast_move g x)).
    destruct (rmm (forecast_move g x)) as [[v mvv] k]. cbn [fst snd] in *.
    destruct Hrec as [Hv1 Hv2].
    destruct (flt v s) eqn:E; apply IH; left.
    + split; assumption.
    + destruct Hs as [Hs | [-> _]]; [exact Hs |].
      assert (Ev : v = pinf) by order. subst v. split; assumption.
Qed.

Lemma alphabeta_max_value_range (rab : game -> F -> F -> @visit F)
    (g : game) :
  (forall g' a b, within lo hi (fst (fst (rab g' a b)))) ->
  forall moves a b s m c,
    within lo hi s \/ (s = ninf /\ moves <> []) ->
    within lo hi (fst (fst (alphabeta_max_value rab g moves a b s m c))).
Proof.
  intros Hrec. induction moves as [| x rest IH]; intros a b s m c Hs; cbn.
  - destruct Hs as [Hs | [_ Hne]]; [exact Hs | congruence].
  - specialize (Hrec (forecast_move g x) a b).
    destruct (rab (forecast_move g x) a b) as [[v mvv] k].
    cbn [fst snd] in *. destruct Hrec as [Hv1 Hv2]. unfold fgt at 1.
    assert (Hs' : within lo hi (if flt s v then v else s)).
    { destruct (flt s v) eqn:E; [split; assumption |].
      destruct Hs as [Hs | [-> _]]; [exact Hs |].
      assert (Ev : v = ninf) by order. subst v. split; assumption. }
    destruct (flt s v); cbn [fst snd];
      (destruct (fle b _); cbn [fst snd];
       [exact Hs' | apply IH; left; exact Hs']).
Qed.

Lemma alphabeta_min_value_range (rab : game -> F -> F -> @visit F)
    (g : game) :
  (forall g' a b, within lo hi (fst (fst (rab g' a b)))) ->
  forall moves a b s m c,
    within lo hi s \/ (s = pinf /\ moves <> []) ->
    within lo hi (fst (fst (alphabeta_min_value rab g moves a b s m c))).
Proof.
  intros Hrec. induction moves as [| x rest IH]; intros a b s m c Hs; cbn.
  - destruct Hs as [Hs | [_ Hne]]; [exact Hs | congruence].
  - specialize (Hrec (forecast_move g x) a b).
    destruct (rab (forecast_move g x) a b) as [[v mvv] k].
    cbn [fst snd] in *. destruct Hrec as [Hv1 Hv2].
    assert (Hs' : within lo hi (if flt v s then v else s)).
    { destruct (flt v s) eqn:E; [split; assumption |].
      destruct Hs as [Hs | [-> _]]; [exact Hs |].
      assert (Ev : v = pinf) by order. subst v. split; assumption. }
    destruct (flt v s); cbn [fst snd];
      (destruct (fle _ a); cbn [fst snd];
       [exact Hs' | apply IH; left; exact Hs']).
Qed.

Hypothesis Hscore : forall g', within lo hi (score self g' (ident self)).

Lemma minimax_value_range (d : nat) :
  forall g mx, within lo hi (fst (fst (minimax_value self d g mx))).
Proof.
  induction d as [| d IH]; intros g mx; cbn.
  - destruct (get_legal_moves g None); apply Hscore.
  - destruct (get_legal_moves g None) as [| first rest] eqn:Hm;
      [apply Hscore |].
    destruct mx.
    + apply minimax_max_value_range; [intros g'; apply IH |].
      right. split; [reflexivity | discriminate].
    + apply minimax_min_value_range; [intros g'; apply IH |].
      right. split; [reflexivity | discriminate].
Qed.

Lemma alphabeta_value_range (d : nat) :
  forall g a b mx, within lo hi (fst (fst (alphabeta_value self d g a b mx))).
Proof.
  induction d as [| d IH]; intros g a b mx; cbn.
  - destruct (get_legal_moves g None); apply Hscore.
  - destruct (get_legal_moves g None) as [| first rest] eqn:Hm;
      [apply Hscore |].
    destruct mx.
    + apply alphabeta_max_value_range; [intros g' a' b'; apply IH |].
      right. split; [reflexivity | discriminate].
    + apply alphabeta_min_value_range; [intros g' a' b'; apply IH |].
      right. split; [reflexivity | discriminate].
Qed.
End Windows.

Section ScoreRange.
Context {F game player : Type} `{FloatOrder F} `{Board game player}.
Variable self : CustomPlayer F game player.
Variable time_left : nat -> F.

(** X11. The searches invent no score: when the score function gives every
    state a value between [lo] and [hi], the score [minimax] or [alphabeta]
    returns lies between [lo] and [hi] too, whatever the depth and the
    window; an infinite score is returned only where the score function
    can give one. *)
Theorem search_score_in_range (lo hi : F) (g : game) (depth : Z)
    (alpha beta : F) (maximizing_player : bool) (w : world) (s : F)
    (mv : move) (w' : world) :
  (forall g', flt (score self g' (ident self)) lo = false
              /\ flt hi (score self g' (ident self)) = false) ->
  minimax self time_left g depth maximizing_player w = (Returned (s, mv), w')
  \/ alphabeta self time_left g depth alpha beta maximizing_player w
     = (Returned (s, mv), w') ->
  flt s lo = false /\ flt hi s = false.
Proof.
  unfold minimax, alphabeta. intros Hscore [Hrun | Hrun].
  - apply minimax_plies_returns in Hrun. destruct Hrun as (_ & Hr & _).
    pose proof (minimax_value_range self Hscore (Z.to_nat depth) g
                  maximizing_player) as Hin.
    rewrite <- Hr in Hin. exact Hin.
  - apply alphabeta_plies_returns in Hrun. destruct Hrun as (_ & Hr & _).
    pose proof (alphabeta_value_range self Hscore (Z.to_nat depth) g alpha
                  beta maximizing_player) as Hin.
    rewrite <- Hr in Hin. exact Hin.
Qed.
End ScoreRange.

(** ** The move [get_move] returns *)

Section DriverFacts.
Context {F game player : Type} `{Float F} `{Board game player}.
Variable self : CustomPlayer F game player.
Variable time_left : nat -> F.

Local Abbreviation thr := (TIMER_THRESHOLD self).
Local Abbreviation tq := time_queries.

(** *** The move of the driver is a legal move *)

Lemma search_once_move (g : game) (depth : Z) (cur r : result F)
    (w w' : world) :
  (1 <= depth)%Z ->
  get_legal_moves g None <> [] ->
  In (snd cur) (get_legal_moves g None) ->
  search_once self time_left g depth cur w = (Returned r, w') ->
  In (snd r) (get_legal_moves g None).
Proof.
  intros Hd Hne Hcur. unfold search_once, minimax, alphabeta.
  destruct (String.eqb (method self) "minimax").
  - rewrite minimax_plies_eq. intros Hrun.
    apply entry_returned in Hrun. destruct Hrun as [_ Hrun].
    apply minimax_expand_move in Hrun. apply Hrun; [lia | exact Hne].
  - destruct (String.eqb (method self) "alphabeta").
    + rewrite alphabeta_plies_eq. intros Hrun.
      apply entry_returned in Hrun. destruct Hrun as [_ Hrun].
      apply alphabeta_expand_move in Hrun. apply Hrun; [lia | exact Hne].
    + intros Hrun. inversion Hrun; subst. exact Hcur.
Qed.

Lemma deepen_move (g : game) :
  get_legal_moves g None <> [] ->
  forall fuel d cur w r w',
    (1 <= d)%Z ->
    In (snd cur) (get_legal_moves g None) ->
    deepen self time_left fuel g d cur w = Some (r, w') ->
    In (snd r) (get_legal_moves g None).
Proof.
  intros Hne. induction fuel as [| fuel IH]; intros d cur w r w' Hd Hcur Hrun;
    cbn in Hrun; [discriminate |].
  destruct (search_once self time_left g d cur w) as [[r1 | e] w1] eqn:Hs.
  - apply (IH (d + 1)%Z r1 w1 r w'); [lia | | exact Hrun].
    exact (@search_once_move g d cur r1 w w1 Hd Hne Hcur Hs).
  - destruct e. inversion Hrun; subst. exact Hcur.
Qed.

(** X12. When [get_move] is given the legal moves of the state, as the
    game loop does, and runs the iterative search or a search of depth 1 or
    more, the move it returns is [(-1, -1)] if there is no legal move and
    one of the legal moves otherwise, whatever the method name and however
    the search was interrupted. *)
Theorem get_move_returns_legal_move (fuel : nat) (g : game)
    (legal_moves : list move) (w : world) (mv : move) (w' : world) :
  legal_moves = get_legal_moves g None ->
  iterative self = true \/ (1 <= search_depth self)%Z ->
  get_move self time_left fuel g legal_moves w = Some (mv, w') ->
  (legal_moves = [] /\ mv = ((-1)%Z, (-1)%Z)) \/ In mv legal_moves.
Proof.
  intros Hl Hmode Hrun. unfold get_move, get_move_locals in Hrun.
  destruct legal_moves as [| first rest].
  - inversion Hrun. left. auto.
  - right. assert (Hne : get_legal_moves g None <> []) by congruence.
    assert (Hfirst : In first (get_legal_moves g None))
      by (rewrite <- Hl; left; reflexivity).
    rewrite Hl.
    destruct (iterative self) eqn:Hit.
    + destruct (deepen self time_left fuel g 1
                  (score self g (ident self), first) (count_score w))
        as [[[s m] w1] |] eqn:Hd; [| discriminate].
      inversion Hrun; subst.
      apply (@deepen_move g Hne fuel 1%Z (score self g (ident self), first)
               (count_score w) (s, mv) w' ltac:(lia) Hfirst Hd).
    + destruct Hmode as [Hm | Hdepth]; [discriminate |].
      destruct (search_once self time_left g (search_depth self)
                  (score self g (ident self), first) (count_score w))
        as [[[s m] | e] w1] eqn:Hs.
      * inversion Hrun; subst.
        apply (@search_once_move g (search_depth self)
                 (score self g (ident self), first) (s, mv) (count_score w)
                 w' Hdepth Hne Hfirst Hs).
      * destruct e. inversion Hrun; subst. exact Hfirst.
Qed.

(** *** The driver and the clock *)

Lemma search_once_queries (g : game) (depth : Z) (cur : result F)
    (w : world) :
  method self = "minimax"%string \/ method self = "alphabeta"%string ->
  S (tq w) <= tq (snd (search_once self time_left g depth cur w)).
Proof.
  unfold search_once, minimax, alphabeta. intros [-> | ->]; cbn.
  - apply minimax_plies_queries.
  - apply alphabeta_plies_queries.
Qed.

(** A pass that returns has taken no reading below the threshold; a pass
    that raises stops at the first one. *)
Lemma search_once_before_low_reading (g : game) (depth : Z)
    (cur : result F) (w : world) (k : nat) :
  flt (time_left k) thr = true -> tq w <= k ->
  match search_once self time_left g depth cur w with
  | (Returned _, w') => tq w' <= k
  | (Raised _, w') => tq w' <= S k
  end.
Proof.
  intros Hlow Hk.
  pose proof (search_once_effect (clocked_search_effect self time_left)
                g depth cur w) as Hc.
  destruct (search_once self time_left g depth cur w) as [[r | e] w1];
    cbn [fst snd raised] in Hc; unfold clocked in Hc.
  - destruct Hc as [Hle Ha].
    destruct (Nat.lt_ge_cases k (tq w1)) as [Hlt | Hge]; [| exact Hge].
    specialize (Ha (k - tq w) ltac:(lia)).
    replace (tq w + (k - tq w)) with k in Ha by lia. congruence.
  - destruct Hc as (Hlt & _ & Ha).
    destruct (Nat.lt_ge_cases k (pred (tq w1))) as [Hlt' | Hge]; [| lia].
    specialize (Ha (k - tq w) ltac:(lia)).
    replace (tq w + (k - tq w)) with k in Ha by lia. congruence.
Qed.

Lemma deepen_stops (g : game) (k : nat) :
  method self = "minimax"%string \/ method self = "alphabeta"%string ->
  flt (time_left k) thr = true ->
  forall fuel d cur w,
    tq w <= k -> k - tq w < fuel ->
    exists r w',
      deepen self time_left fuel g d cur w = Some (r, w') /\ tq w' <= S k.
Proof.
  intros Hm Hlow. induction fuel as [| fuel IH]; intros d cur w Hk Hf;
    [lia |].
  cbn [deepen].
  pose proof (search_once_before_low_reading g d cur w Hlow Hk) as Hb.
  pose proof (search_once_queries g d cur w Hm) as Hq.
  destruct (search_once self time_left g d cur w) as [[r1 | e] w1];
    cbn [snd] in *.
  - apply IH; lia.
  - destruct e. exists cur, w1. split; [reflexivity | exact Hb].
Qed.

(** X13. With a recognised method, [get_move] returns as soon as the
    clock runs out: if some reading from now on is below the threshold,
    [get_move] returns a move, iterative search included, and has queried
    the clock no further than that reading. *)
Theorem get_move_returns_when_time_is_out (fuel : nat) (g : game)
    (legal_moves : list move) (w : world) (k : nat) :
  method self = "minimax"%string \/ method self = "alphabeta"%string ->
  flt (time_left k) thr = true ->
  tq w <= k -> k - tq w < fuel ->
  exists mv w',
    get_move self time_left fuel g legal_moves w = Some (mv, w')
    /\ tq w' <= S k.
Proof.
  intros Hm Hlow Hk Hf. unfold get_move, get_move_locals.
  destruct legal_moves as [| first rest].
  - do 2 eexists. split; [reflexivity | lia].
  - destruct (iterative self).
    + destruct (@deepen_stops g k Hm Hlow fuel 1%Z
                  (score self g (ident self), first) (count_score w))
        as (r & w' & -> & Hle); [exact Hk | exact Hf |].
      destruct r as [s m]. do 2 eexists. split; [reflexivity | exact Hle].
    + pose proof (@search_once_before_low_reading g (search_depth self)
                    (score self g (ident self), first) (count_score w) k
                    Hlow Hk) as Hb.
      destruct (search_once self time_left g (search_depth self)
                  (score self g (ident self), first) (count_score w))
        as [[[s m] | e] w1].
      * do 2 eexists. split; [reflexivity | lia].
      * destruct e. do 2 eexists. split; [reflexivity | exact Hb].
Qed.

(** X14. With a recognised method and a first reading of the clock below
    the threshold, [get_move] returns the first legal move, in both modes,
    after that one query and one evaluation of the score. *)
Theorem get_move_without_time (fuel : nat) (g : game) (first : move)
    (rest : list move) (w : world) :
  method self = "minimax"%string \/ method self = "alphabeta"%string ->
  flt (time_left (tq w)) thr = true ->
  0 < fuel ->
  get_move self time_left fuel g (first :: rest) w
  = Some (first, count_query (count_search (count_score w))).
Proof.
  intros Hm Hlow Hf.
  assert (Hs : forall d cur,
             search_once self time_left g d cur (count_score w)
             = (Raised Timeout, count_query (count_search (count_score w)))).
  { intros d cur. unfold search_once, minimax, alphabeta.
    destruct Hm as [-> | ->]; cbn [String.eqb Ascii.eqb Bool.eqb];
      [rewrite minimax_plies_eq | rewrite alphabeta_plies_eq];
      rewrite entry_run; cbn [time_queries count_score];
      rewrite Hlow; reflexivity. }
  unfold get_move, get_move_locals. destruct (iterative self).
  - destruct fuel as [| fuel]; [lia |]. cbn [deepen]. rewrite Hs. reflexivity.
  - rewrite Hs. reflexivity.
Qed.

(** X16. With a method name that is neither ["minimax"] nor ["alphabeta"],
    the iterative [get_move] on a state with legal moves never returns:
    the loop runs no search, queries no clock and has no other exit. *)
Theorem get_move_unknown_method_never_returns (g : game)
    (legal_moves : list move) (w : world) :
  method self <> "minimax"%string -> method self <> "alphabeta"%string ->
  iterative self = true ->
  legal_moves <> [] ->
  forall fuel, get_move self time_left fuel g legal_moves w = None.
Proof.
  intros H1 H2 Hit Hne fuel. unfold get_move, get_move_locals.
  destruct legal_moves as [| first rest]; [congruence |].
  rewrite Hit, deepen_unknown by assumption. reflexivity.
Qed.
End DriverFacts.

(** ** The method and the answer *)

Section Agents.
Context {F game player : Type} `{Float F} `{Board game player}.
Variable time_left : nat -> F.

(** *** What the search reads of the agent *)

Lemma minimax_max_loop_ext (rec1 rec2 : game -> M (result F)) (g : game) :
  (forall g' w, rec1 g' w = rec2 g' w) ->
  forall moves s m w,
    minimax_max_loop rec1 g moves s m w = minimax_max_loop rec2 g moves s m w.
Proof.
  intros Hrec. induction moves as [| mv rest IH]; intros s m w; cbn;
    [reflexivity |].
  unfold bind. rewrite Hrec.
  destruct (rec2 (forecast_move g mv) w) as [[r | e] w1]; [| reflexivity].
  destruct (fgt (fst r) s); apply IH.
Qed.

Lemma minimax_min_loop_ext (rec1 rec2 : game -> M (result F)) (g : game) :
  (forall g' w, rec1 g' w = rec2 g' w) ->
  forall moves s m w,
    minimax_min_loop rec1 g moves s m w = minimax_min_loop rec2 g moves s m w.
Proof.
  intros Hrec. induction moves as [| mv rest IH]; intros s m w; cbn;
    [reflexivity |].
  unfold bind. rewrite Hrec.
  destruct (rec2 (forecast_move g mv) w) as [[r | e] w1]; [| reflexivity].
  destruct (flt (fst r) s); apply IH.
Qed.

(** [minimax] reads the identity, the score function and the threshold of
    the agent, nothing else. *)
Lemma minimax_plies_agent (a b : CustomPlayer F game player) :
  ident a = ident b -> score a = score b ->
  TIMER_THRESHOLD a = TIMER_THRESHOLD b ->
  forall d g mx w,
    minimax_plies a time_left d g mx w = minimax_plies b time_left d g mx w.
Proof.
  intros Hi Hs Ht.
  assert (Hleaf : forall g w, leaf a g w = leaf b g w).
  { intros g w. rewrite !leaf_run. unfold leaf_value.
    rewrite Hi, Hs. reflexivity. }
  induction d as [| d IH]; intros g mx w;
    rewrite !minimax_plies_eq, !entry_run, Ht;
    destruct (flt (time_left (time_queries w)) (TIMER_THRESHOLD b));
    try reflexivity.
  - apply Hleaf.
  - unfold minimax_expand.
    destruct (get_legal_moves g None) as [| first rest]; [apply Hleaf |].
    destruct mx;
      [apply minimax_max_loop_ext | apply minimax_min_loop_ext];
      intros g' w'; apply IH.
Qed.
End Agents.

Section Answers.
Context {F game player : Type} `{FloatOrder F} `{Board game player}.
Variable time_left : nat -> F.

Local Abbreviation tq := time_queries.

(** At the root the pruned search returns what the full search returns,
    when the full search returns. *)
Lemma alphabeta_plies_root_run (self : CustomPlayer F game player)
    (d : nat) (g : game) (mx : bool) (w : world) (r : result F)
    (w' : world) :
  minimax_plies self time_left d g mx w = (Returned r, w') ->
  exists w'',
    alphabeta_plies self time_left d g ninf pinf mx w = (Returned r, w'')
    /\ tq w'' <= tq w'.
Proof.
  intros Hrun.
  apply minimax_plies_returns in Hrun. destruct Hrun as (Hample & -> & Hq).
  pose proof (alphabeta_value_calls_le self d g ninf pinf mx) as Hle.
  destruct (@alphabeta_plies_value _ _ _ _ _ self time_left d g ninf pinf
              mx w) as (w'' & Hab & Hq').
  { eapply ample_sub; [exact Hample | lia | lia]. }
  exists w''. rewrite Hab, alphabeta_value_root.
  split; [reflexivity | lia].
Qed.

(** X15. In fixed-depth mode the method does not change the answer: when
    the agent with [method = "minimax"] finishes its search, [get_move]
    returns the move of that search, and the agent that differs from it by
    [method = "alphabeta"] only returns the same move, after no more
    queries of the clock. *)
Theorem get_move_fixed_depth_same_move (a b : CustomPlayer F game player)
    (fuel : nat) (g : game) (first : move) (rest : list move) (w : world)
    (r : result F) (w1 : world) :
  ident a = ident b -> score a = score b ->
  TIMER_THRESHOLD a = TIMER_THRESHOLD b ->
  search_depth a = search_depth b ->
  iterative a = false -> iterative b = false ->
  method a = "minimax"%string -> method b = "alphabeta"%string ->
  minimax a time_left g (search_depth a) true (count_score w)
  = (Returned r, w1) ->
  get_move a time_left fuel g (first :: rest) w = Some (snd r, w1)
  /\ exists w2,
       get_move b time_left fuel g (first :: rest) w = Some (snd r, w2)
       /\ tq w2 <= tq w1.
Proof.
  intros Hi Hs Ht Hd Hia Hib Hma Hmb Hrun. split.
  - unfold get_move, get_move_locals, search_once.
    rewrite Hia, Hma. cbn [String.eqb Ascii.eqb Bool.eqb].
    rewrite Hrun. destruct r; reflexivity.
  - unfold minimax in Hrun.
    rewrite (minimax_plies_agent time_left a b Hi Hs Ht) in Hrun.
    apply alphabeta_plies_root_run in Hrun.
    destruct Hrun as (w2 & Hab & Hle). exists w2. split; [| exact Hle].
    unfold get_move, get_move_locals, search_once.
    rewrite Hib, Hmb. cbn [String.eqb Ascii.eqb Bool.eqb].
    unfold alphabeta. rewrite <- Hd, Hab. destruct r; reflexivity.
Qed.

Variable self : CustomPlayer F game player.

Local Abbreviation thr := (TIMER_THRESHOLD self).

(** A pass of a recognised method that returns gives the result of the full
    search at its depth. *)
Lemma search_once_value (g : game) (depth : Z) (cur r : result F)
    (w w' : world) :
  method self = "minimax"%string \/ method self = "alphabeta"%string ->
  search_once self time_left g depth cur w = (Returned r, w') ->
  r = fst (minimax_value self (Z.to_nat depth) g true).
Proof.
  unfold search_once, minimax, alphabeta.
  intros [-> | ->]; cbn [String.eqb Ascii.eqb Bool.eqb]; intros Hrun.
  - apply minimax_plies_returns in Hrun. destruct Hrun as (_ & -> & _).
    reflexivity.
  - apply alphabeta_plies_returns in Hrun. destruct Hrun as (_ & -> & _).
    apply alphabeta_value_root.
Qed.

Lemma deepen_value (g : game) :
  method self = "minimax"%string \/ method self = "alphabeta"%string ->
  forall fuel d cur w r w',
    (1 <= d)%Z ->
    deepen self time_left fuel g d cur w = Some (r, w') ->
    r = cur
    \/ exists d', (1 <= d')%Z
                  /\ r = fst (minimax_value self (Z.to_nat d') g true).
Proof.
  intros Hm. induction fuel as [| fuel IH]; intros d cur w r w' Hd Hrun;
    cbn in Hrun; [discriminate |].
  destruct (search_once self time_left g d cur w) as [[r1 | e] w1] eqn:Hs.
  - right. apply IH in Hrun; [| lia].
    destruct Hrun as [-> | Hr]; [| exact Hr].
    exists d. split; [exact Hd |].
    exact (@search_once_value g d cur r1 w w1 Hm Hs).
  - destruct e. inversion Hrun; subst. left. reflexivity.
Qed.

(** With a clock that never reads below the threshold the full search
    returns its value. *)
Lemma minimax_on_steady_clock (g : game) (depth : Z) (clock : nat -> F)
    (v : world) :
  (forall k, flt (clock k) thr = false) ->
  exists v',
    minimax self clock g depth true v
    = (Returned (fst (minimax_value self (Z.to_nat depth) g true)), v').
Proof.
  intros Hsteady. unfold minimax.
  destruct (@minimax_plies_value _ _ _ _ _ self clock (Z.to_nat depth) g
              true v) as (v' & Hv & _); [intros i _; apply Hsteady |].
  exists v'. exact Hv.
Qed.

(** X17. The answer of [get_move] is never a partial result. With a
    recognised method, the locals [(score, move)] at the return are either
    the first ones, the score of the state with the first legal move, or
    exactly what [minimax] returns on the state, given the time, at some
    depth: a depth of 1 or more in iterative mode, [search_depth] in
    fixed-depth mode. *)
Theorem get_move_answer_is_a_full_search (fuel : nat) (g : game)
    (first : move) (rest : list move) (w : world) (s : F) (mv : move)
    (w' : world) :
  method self = "minimax"%string \/ method self = "alphabeta"%string ->
  get_move_locals self time_left fuel g (first :: rest) w
  = Some (Some s, mv, w') ->
  (s, mv) = (score self g (ident self), first)
  \/ exists depth,
       (if iterative self then (1 <= depth)%Z else depth = search_depth self)
       /\ forall clock v,
            (forall k, flt (clock k) thr = false) ->
            exists v',
              minimax self clock g depth true v = (Returned (s, mv), v').
Proof.
  intros Hm Hrun. unfold get_move_locals in Hrun.
  destruct (iterative self).
  - destruct (deepen self time_left fuel g 1
                (score self g (ident self), first) (count_score w))
      as [[[s0 m0] w0] |] eqn:Hd; [| discriminate].
    inversion Hrun; subst.
    apply (@deepen_value g Hm) in Hd; [| lia].
    destruct Hd as [E | (d' & Hd' & E)]; [left; exact E |].
    right. exists d'. split; [exact Hd' |].
    intros clock v Hsteady. rewrite E.
    apply minimax_on_steady_clock, Hsteady.
  - destruct (search_once self time_left g (search_depth self)
                (score self g (ident self), first) (count_score w))
      as [[[s0 m0] | e] w0] eqn:Hs.
    + inversion Hrun; subst. right. exists (search_depth self).
      split; [reflexivity |].
      intros clock v Hsteady.
      rewrite (@search_once_value g (search_depth self) _ _ _ _ Hm Hs).
      apply minimax_on_steady_clock, Hsteady.
    + destruct e. inversion Hrun; subst. left. reflexivity.
Qed.
End Answers.

(** ** The properties at concrete inputs *)

(** X2 on the 7 by 7 board: one king step from the mid cell rates above
    three steps, and the mid cell itself below both. *)
Lemma within_radius_order_witness :
  (within_radius (agent_at (0, 1)%Z) true
   < within_radius (agent_at (2, 3)%Z) true)%R
  /\ (within_radius (agent_at (3, 3)%Z) true
      < within_radius (agent_at (0, 1)%Z) true)%R.
Proof.
  split.
  - apply (proj1 (@within_radius_order position bool Board_position
                    (agent_at (2, 3)%Z) (agent_at (0, 1)%Z) true true
                    eq_refl)).
    vm_compute. split; reflexivity.
  - apply (proj2 (@within_radius_order position bool Board_position
                    (agent_at (3, 3)%Z) (agent_at (0, 1)%Z) true true
                    eq_refl)).
    + reflexivity.
    + intros E. inversion E.
Defined.

(** X4 on the 7 by 7 board. *)
Lemma own_distance_from_mid_order_witness :
  (own_distance_from_mid (agent_at (0, 1)%Z) true
   < own_distance_from_mid (agent_at (2, 3)%Z) true)%R
  /\ (own_distance_from_mid (agent_at (3, 3)%Z) true
      < own_distance_from_mid (agent_at (0, 1)%Z) true)%R.
Proof.
  split.
  - apply (proj1 (@own_distance_from_mid_order position bool Board_position
                    (agent_at (2, 3)%Z) (agent_at (0, 1)%Z) true true
                    eq_refl)).
    vm_compute. split; reflexivity.
  - apply (proj2 (@own_distance_from_mid_order position bool Board_position
                    (agent_at (3, 3)%Z) (agent_at (0, 1)%Z) true true
                    eq_refl)).
    + reflexivity.
    + intros E. inversion E.
Defined.

(** X5 on the 7 by 7 board, where the opponent of a player is the other
    one. *)
Lemma diff_distance_from_mid_zero_sum_witness :
  diff_distance_from_mid odd_board false
  = (- diff_distance_from_mid odd_board true)%R
  /\ exists x, custom_score odd_board true = Fin x
               /\ custom_score odd_board false = Fin (- x)%R.
Proof.
  destruct (@diff_distance_from_mid_zero_sum position bool Board_position
              odd_board true eq_refl) as [E Hscore].
  split; [exact E |]. apply Hscore; reflexivity.
Defined.

(** X8 at a concrete run: three readings of 150 ms, then one of 5 ms, on
    which the fourth call raises. *)
Lemma timeout_only_on_low_reading_witness :
  (forall k, 0 <= k < 3 -> flt (expiring 3 k) (Fin 10%Z) = false)
  /\ (true = true -> 0 < 4 /\ flt (expiring 3 3) (Fin 10%Z) = true).
Proof.
  exact (@timeout_only_on_low_reading (ext Z) tree unit _ _
           (tree_agent 2 false "minimax") (expiring 3)
           (minimax (tree_agent 2 false "minimax") (expiring 3) two_plies 2
              true)
           two_plies 2 NInf PInf true fresh (Raised Timeout) (World 4 1 4)
           (or_introl eq_refl) eq_refl).
Defined.

(** X9 at a concrete state and clock. *)
Lemma search_returns_on_steady_clock_witness :
  exists r r' w1 w2,
    minimax (tree_agent 2 false "minimax") steady two_plies 2 true fresh
    = (Returned r, w1)
    /\ alphabeta (tree_agent 2 false "minimax") steady two_plies 2 NInf PInf
         true fresh
       = (Returned r', w2)
    /\ (forall clock v x v',
          minimax (tree_agent 2 false "minimax") clock two_plies 2 true v
          = (Returned x, v') -> x = r)
    /\ (forall clock v x v',
          alphabeta (tree_agent 2 false "minimax") clock two_plies 2 NInf
            PInf true v
          = (Returned x, v') -> x = r').
Proof.
  apply (@search_returns_on_steady_clock (ext Z) tree unit _ _
           (tree_agent 2 false "minimax") steady two_plies 2 NInf PInf true
           fresh).
  intros k. reflexivity.
Defined.

(** X10 at a node where pruning stops early: the full search finds 7, the
    search with the window (0, 1) stops at the first child and returns 1,
    which is not below [beta]. *)
Lemma alphabeta_window_witness :
  (flt (Fin 0%Z) (Fin 7%Z) = false -> flt (Fin 0%Z) (Fin 1%Z) = false)
  /\ (flt (Fin 0%Z) (Fin 7%Z) = true -> flt (Fin 7%Z) (Fin 1%Z) = true ->
      Fin 1%Z = Fin 7%Z)
  /\ (flt (Fin 7%Z) (Fin 1%Z) = false -> flt (Fin 1%Z) (Fin 1%Z) = false).
Proof.
  exact (@alphabeta_window (ext Z) tree unit _ FloatOrder_extZ _
           (tree_agent 1 false "alphabeta") steady
           (tree_forecast two_plies (4, 4)%Z) 1 (Fin 0%Z) (Fin 1%Z) true
           (expiring 2) fresh fresh (Fin 7%Z) (Fin 1%Z) (5, 6)%Z (5, 5)%Z
           (World 3 2 3) (World 2 1 2) eq_refl eq_refl eq_refl).
Defined.

(** X11 with a heuristic that counts open moves, never negative. *)
Lemma search_score_in_range_witness :
  flt (Fin 2%Z) (Fin 0%Z) = false /\ flt PInf (Fin 2%Z) = false.
Proof.
  apply (@search_score_in_range (ext Z) tree unit _ FloatOrder_extZ _
           (open_moves_agent 1 false "minimax") steady (Fin 0%Z) PInf
           two_plies 1 NInf PInf true fresh (Fin 2%Z) (2, 3)%Z
           (World 3 2 3)).
  - intros g'. split; [| reflexivity]. cbn. apply Z.ltb_ge. lia.
  - left. reflexivity.
Defined.

(** X12 at a concrete call, interrupted in its second pass. *)
Lemma get_move_returns_legal_move_witness :
  ([(2, 3)%Z; (4, 4)%Z] = [] /\ (4, 4)%Z = ((-1)%Z, (-1)%Z))
  \/ In (4, 4)%Z [(2, 3)%Z; (4, 4)%Z].
Proof.
  exact (@get_move_returns_legal_move (ext Z) tree unit _ _
           (tree_agent 3 true "minimax") (expiring 3) 5 two_plies
           [(2, 3)%Z; (4, 4)%Z] fresh (4, 4)%Z (World 4 3 4)
           eq_refl (or_introl eq_refl) eq_refl).
Defined.

(** X13 at a concrete call: the reading of index 3 is below the
    threshold. *)
Lemma get_move_returns_when_time_is_out_witness :
  exists mv w',
    get_move (tree_agent 3 true "minimax") (expiring 3) 5 two_plies
      [(2, 3)%Z; (4, 4)%Z] fresh
    = Some (mv, w')
    /\ time_queries w' <= 4.
Proof.
  apply (@get_move_returns_when_time_is_out (ext Z) tree unit _ _
           (tree_agent 3 true "minimax") (expiring 3) 5 two_plies
           [(2, 3)%Z; (4, 4)%Z] fresh 3).
  - left. reflexivity.
  - reflexivity.
  - cbn. lia.
  - cbn. lia.
Defined.

(** X14 at a concrete call. *)
Lemma get_move_without_time_witness :
  get_move (tree_agent 3 true "alphabeta") (expiring 0) 1 two_plies
    [(2, 3)%Z; (4, 4)%Z] fresh
  = Some ((2, 3)%Z, count_query (count_search (count_score fresh))).
Proof.
  apply (@get_move_without_time (ext Z) tree unit _ _
           (tree_agent 3 true "alphabeta") (expiring 0) 1 two_plies
           (2, 3)%Z [(4, 4)%Z] fresh).
  - right. reflexivity.
  - reflexivity.
  - lia.
Defined.

(** X15 at two agents of depth 2 that differ by the method. *)
Lemma get_move_fixed_depth_same_move_witness :
  get_move (tree_agent 2 false "minimax") steady 0 two_plies
    [(2, 3)%Z; (4, 4)%Z] fresh
  = Some ((2, 3)%Z, World 7 5 7)
  /\ exists w2,
       get_move (tree_agent 2 false "alphabeta") steady 0 two_plies
         [(2, 3)%Z; (4, 4)%Z] fresh
       = Some ((2, 3)%Z, w2)
       /\ time_queries w2 <= 7.
Proof.
  exact (@get_move_fixed_depth_same_move (ext Z) tree unit _
           FloatOrder_extZ _ steady (tree_agent 2 false "minimax")
           (tree_agent 2 false "alphabeta") 0 two_plies (2, 3)%Z
           [(4, 4)%Z] fresh (Fin 2%Z, (2, 3)%Z) (World 7 5 7)
           eq_refl eq_refl eq_refl eq_refl eq_refl eq_refl eq_refl eq_refl
           eq_refl).
Defined.

(** X16 at a concrete agent, for seven passes of the loop. *)
Lemma get_move_unknown_method_never_returns_witness :
  get_move (tree_agent 3 true "negamax") steady 7 two_plies
    [(2, 3)%Z; (4, 4)%Z] fresh
  = None.
Proof.
  apply (@get_move_unknown_method_never_returns (ext Z) tree unit _ _
           (tree_agent 3 true "negamax") steady two_plies
           [(2, 3)%Z; (4, 4)%Z] fresh); try discriminate.
  reflexivity.
Defined.

(** X17 at a concrete call: interrupted in the third pass, [get_move]
    answers with the result of [minimax] at depth 2. *)
Lemma get_move_answer_is_a_full_search_witness :
  (Fin 2%Z, (2, 3)%Z)
  = (score (tree_agent 3 true "alphabeta") two_plies
       (ident (tree_agent 3 true "alphabeta")), (2, 3)%Z)
  \/ exists depth,
       (if iterative (tree_agent 3 true "alphabeta")
        then (1 <= depth)%Z
        else depth = search_depth (tree_agent 3 true "alphabeta"))
       /\ forall clock v,
            (forall k, flt (clock k) (Fin 10%Z) = false) ->
            exists v',
              minimax (tree_agent 3 true "alphabeta") clock two_plies depth
                true v
              = (Returned (Fin 2%Z, (2, 3)%Z), v').
Proof.
  exact (@get_move_answer_is_a_full_search (ext Z) tree unit _
           FloatOrder_extZ _ (expiring 9) (tree_agent 3 true "alphabeta") 5
           two_plies (2, 3)%Z [(4, 4)%Z] fresh (Fin 2%Z) (2, 3)%Z
           (World 10 6 10) (or_intror eq_refl) eq_refl).
Defined.
